(** * twingate-caddy: route discovery and resource reconciliation

    A shallow embedding of the route discoverer ([graphql_client.go], second
    half) and of the reconciliation engine ([sync.go] together with the
    [TwingateClient] methods of [graphql_client.go]), followed by the
    properties of the specification that were checked against them.

    Go strings are byte strings; they are modelled by [string].  Go maps are
    modelled by [gmap]; where the source ranges over a map, whose order Go
    leaves unspecified, the visiting order is made explicit. *)

From Stdlib Require Import String Ascii List Arith Lia Bool.
From stdpp Require Import base option list gmap strings fin_maps pretty.

Local Open Scope string_scope.
Local Open Scope list_scope.

(** ** The functions of package [strings] that the source calls *)

Module strings.

(** [strings.HasSuffix(s, suffix)]:
    [len(s) >= len(suffix) && s[len(s)-len(suffix):] == suffix]. *)
Definition HasSuffix (s suffix : string) : bool :=
  (String.length suffix <=? String.length s)%nat &&
  String.eqb
    (substring (String.length s - String.length suffix) (String.length suffix) s)
    suffix.

(** [strings.TrimSuffix(s, suffix)]: [s] without the suffix when it has it,
    otherwise [s] unchanged.  At most one occurrence is removed. *)
Definition TrimSuffix (s suffix : string) : string :=
  if HasSuffix s suffix
  then substring 0 (String.length s - String.length suffix) s
  else s.

(** [strings.Contains(s, substr)]: [substr] occurs at some position of [s]. *)
Fixpoint Contains (s substr : string) : bool :=
  String.prefix substr s ||
  match s with
  | EmptyString => false
  | String _ s' => Contains s' substr
  end.

End strings.

(** ** Route discoverer: data model *)

Record RouteContext := mkRouteContext {
  Hosts : list string;
  CtxPath : string
}.

Record Endpoint := mkEndpoint {
  Host : string;
  Path : string
}.

Record ResourceMapping := mkResourceMapping {
  Name : string;
  Alias : option string;
  Address : string
}.

#[global] Instance Endpoint_eq_dec : EqDecision Endpoint.
Proof. solve_decision. Defined.

#[global] Instance ResourceMapping_eq_dec : EqDecision ResourceMapping.
Proof. solve_decision. Defined.

(** The separator of [CanonicalKey], the byte [\x00]. *)
Definition NUL : string := String Ascii.zero EmptyString.

Definition CanonicalKey (e : Endpoint) : string :=
  Host e +:+ NUL +:+ Path e.

Definition ResourceName (e : Endpoint) : string := Host e.

(** A nil [*string] is [None]. *)
Definition ResourceAlias (e : Endpoint) : option string :=
  if strings.Contains (Host e) "*" then None else Some (Host e).

Definition ToResourceMapping (caddyAddress : string) (e : Endpoint) : ResourceMapping :=
  {| Name := ResourceName e;
     Alias := ResourceAlias e;
     Address := caddyAddress |}.

(** ** The routing tree

    [caddyhttp.RequestMatcher] is an interface; [mergeMatchers] switches on
    two of its implementations and ignores every other one. *)
Inductive Matcher :=
| MatchHost (hosts : list string)
| MatchPath (paths : list string)
| MatchOther.

(** A handler still in its JSON form ([json.RawMessage]), seen through what
    [traverseHandlerRaw] reads of it: whether it unmarshals into a
    [map[string]any], the value of ["handler"] when it is a string, and the
    value of ["routes"] when it is an array.  Each element of that array is
    seen through what unmarshalling it into a [caddyhttp.Route] keeps:
    the raw matcher sets (key ["match"]) and the raw handlers (key
    ["handle"]). *)
Inductive RawMessage :=
| RawMalformed
| RawObject (handler : option string) (routes : option (list RawRoute))
with RawRoute :=
| RawRouteUndecodable
| RawRouteObject (matchRaw : list (list Matcher)) (handle : list RawMessage).

(** [caddyhttp.MiddlewareHandler] is an interface; [traverseHandler] switches
    on [*reverseproxy.Handler] and [*caddyhttp.Subroute] and skips every other
    type, of which [module] keeps the module name. *)
Inductive MiddlewareHandler :=
| ReverseProxyHandler
| Subroute (Routes : list Route)
| OtherHandler (module : string)
with Route :=
| mkRoute (MatcherSetsRaw : list (list Matcher))
          (HandlersRaw : list RawMessage)
          (MatcherSets : list (list Matcher))
          (Handlers : list MiddlewareHandler).

Definition MatcherSetsRaw (r : Route) : list (list Matcher) :=
  match r with mkRoute x _ _ _ => x end.
Definition HandlersRaw (r : Route) : list RawMessage :=
  match r with mkRoute _ x _ _ => x end.
Definition MatcherSets (r : Route) : list (list Matcher) :=
  match r with mkRoute _ _ x _ => x end.
Definition Handlers (r : Route) : list MiddlewareHandler :=
  match r with mkRoute _ _ _ x => x end.

(** [json.Unmarshal] into a [caddyhttp.Route]: the fields [MatcherSets] and
    [Handlers] carry the tag [json:"-"] and stay empty; only the raw fields
    are filled. *)
Definition decodeRoute (routeAny : RawRoute) : option Route :=
  match routeAny with
  | RawRouteUndecodable => None
  | RawRouteObject matchRaw handle => Some (mkRoute matchRaw handle [] [])
  end.

Record Server := mkServer { Routes : list Route }.

(** [httpApp.Servers] is a [map[string]*Server]; the list gives its entries
    in the order in which one run of [range] visits them. *)
Record App := mkApp { Servers : list (string * Server) }.

(** ** Route discoverer: operations *)

Definition normalizePath (path : string) : string :=
  let path := strings.TrimSuffix path "*" in
  let path :=
    if negb (String.eqb path "") && negb (String.eqb path "/")
       && negb (strings.HasSuffix path "/")
    then path +:+ "/" else path in
  if String.eqb path "/" then "" else path.

Definition mergeMatchers (route : Route) (parentCtx : RouteContext) : RouteContext :=
  foldl (fun ctx matcherSet =>
    foldl (fun ctx matcher =>
      match matcher with
      | MatchHost hosts => {| Hosts := hosts; CtxPath := CtxPath ctx |}
      | MatchPath paths =>
          match paths with
          | p0 :: _ => {| Hosts := Hosts ctx; CtxPath := normalizePath p0 |}
          | [] => ctx
          end
      | MatchOther => ctx
      end) ctx matcherSet)
    {| Hosts := Hosts parentCtx; CtxPath := CtxPath parentCtx |}
    (MatcherSets route).

Definition emitEndpoints (ctx : RouteContext) (endpointMap : gmap string Endpoint)
  : gmap string Endpoint :=
  let hosts := match Hosts ctx with [] => ["localhost"] | _ => Hosts ctx end in
  foldl (fun endpointMap host =>
    let ep := {| Host := host; Path := CtxPath ctx |} in
    let key := CanonicalKey ep in
    match endpointMap !! key with
    | Some _ => endpointMap
    | None => <[key := ep]> endpointMap
    end) endpointMap hosts.

(** [traverseHandlerRaw].  A decoded nested route has neither [MatcherSets]
    nor [Handlers], so the call of [traverseRoute] on it goes through its raw
    handlers with the context unchanged; that call is written out here, and
    [traverseHandlerRaw_subroute] below states that it is [traverseRoute] on
    the decoded route. *)
Fixpoint traverseHandlerRaw (handlerRaw : RawMessage) (ctx : RouteContext)
    (endpointMap : gmap string Endpoint) {struct handlerRaw} : gmap string Endpoint :=
  match handlerRaw with
  | RawMalformed => endpointMap
  | RawObject None _ => endpointMap
  | RawObject (Some handlerType) routes =>
      if String.eqb handlerType "reverse_proxy" then emitEndpoints ctx endpointMap
      else if String.eqb handlerType "subroute" then
        match routes with
        | None => endpointMap
        | Some routes =>
            foldl (fun endpointMap routeAny =>
              match routeAny with
              | RawRouteUndecodable => endpointMap
              | RawRouteObject _ handle =>
                  foldl (fun endpointMap handlerRaw =>
                           traverseHandlerRaw handlerRaw ctx endpointMap)
                        endpointMap handle
              end) endpointMap routes
        end
      else endpointMap
  end.

Fixpoint traverseRoute (route : Route) (parentCtx : RouteContext)
    (endpointMap : gmap string Endpoint) {struct route} : gmap string Endpoint :=
  let ctx := mergeMatchers route parentCtx in
  match route with
  | mkRoute _ handlersRaw _ handlers =>
      let endpointMap :=
        foldl (fun endpointMap handler => traverseHandler handler ctx endpointMap)
              endpointMap handlers in
      if (length handlers =? 0)%nat && (0 <? length handlersRaw)%nat
      then foldl (fun endpointMap handlerRaw =>
                    traverseHandlerRaw handlerRaw ctx endpointMap)
                 endpointMap handlersRaw
      else endpointMap
  end
with traverseHandler (handler : MiddlewareHandler) (ctx : RouteContext)
    (endpointMap : gmap string Endpoint) {struct handler} : gmap string Endpoint :=
  match handler with
  | ReverseProxyHandler => emitEndpoints ctx endpointMap
  | Subroute routes =>
      foldl (fun endpointMap route => traverseRoute route ctx endpointMap)
            endpointMap routes
  | OtherHandler _ => endpointMap
  end.

(** The first loop of [DiscoverEndpoints]: every route of every server is
    traversed into one shared [endpointMap]. *)
Definition scanServers (httpApp : App) : gmap string Endpoint :=
  foldl (fun endpointMap '(serverName, server) =>
    let ctx :=
      if negb (String.eqb serverName "") && negb (String.eqb serverName "srv0")
      then {| Hosts := [serverName]; CtxPath := "" |}
      else {| Hosts := []; CtxPath := "" |} in
    foldl (fun endpointMap route => traverseRoute route ctx endpointMap)
          endpointMap (Routes server))
    ∅ (Servers httpApp).

(** The host-level deduplication loop of [DiscoverEndpoints]: its body, and
    the loop from an empty [hostMap]. *)
Definition dedupStep (hostMap : gmap string Endpoint) (ep : Endpoint)
  : gmap string Endpoint :=
  match hostMap !! Host ep with
  | Some _ => hostMap
  | None => <[Host ep := {| Host := Host ep; Path := "" |}]> hostMap
  end.

Definition dedupByHost (endpoints : list Endpoint) : gmap string Endpoint :=
  foldl dedupStep ∅ endpoints.

(** [for _, ep := range m { l = append(l, ep) }]: every value of the map
    once, in an order Go does not fix. *)
Definition ranges_to (m : gmap string Endpoint) (l : list Endpoint) : Prop :=
  l ≡ₚ (map_to_list m).*2.

(** The results [DiscoverEndpoints] may return for an application, one for
    each pair of visiting orders of its two map-to-slice loops. *)
Definition DiscoverEndpoints_returns (httpApp : App) (result : list Endpoint) : Prop :=
  ∃ endpoints,
    ranges_to (scanServers httpApp) endpoints ∧
    ranges_to (dedupByHost endpoints) result.

(** [DiscoverEndpoints] with both maps visited in the order of [map_to_list]. *)
Definition DiscoverEndpoints (httpApp : App) : list Endpoint :=
  (map_to_list (dedupByHost (map_to_list (scanServers httpApp)).*2)).*2.

(** ** Reconciliation engine: data model ([types.go], [twingate.go]) *)

Module RemoteNetwork.
Record t := mk { ID : string; Name : string }.
End RemoteNetwork.

(** [Address.Value] and [RemoteNetwork.ID] are the only fields of their
    nested structs and are kept flat. *)
Module Resource.
Record t := mk {
  ID : string;
  Name : string;
  AddressValue : string;
  Alias : option string;
  RemoteNetworkID : string
}.
End Resource.

Module ResourceCreateInput.
Record t := mk {
  Name : string;
  Address : string;
  RemoteNetworkID : string;
  Alias : string
}.
End ResourceCreateInput.

Module ResourceUpdateInput.
Record t := mk {
  ID : string;
  Name : option string;
  Address : option string;
  Alias : option string
}.
End ResourceUpdateInput.

Record CleanupConfig := mkCleanupConfig { Enabled : bool; DryRun : bool }.

Module SyncSummary.
Record t := mk {
  TotalMappings : nat;
  RemoteNetworkAction : string;
  RemoteNetworkName : string;
  RemoteNetworkID : string;
  ResourcesToCreate : nat;
  ResourcesToUpdate : nat
}.
End SyncSummary.

Definition DefaultRemoteNetworkName : string := "Caddy-Managed".

(** A Go [error] is [option string] ([None] is [nil]); a pair [(T, error)] is
    a [result T]. *)
Inductive result (A : Type) :=
| Ok (a : A)
| Err (msg : string).
Arguments Ok {A} a.
Arguments Err {A} msg.

Definition is_Ok {A} (r : result A) : bool :=
  match r with Ok _ => true | Err _ => false end.

(** ** The GraphQL transport

    [client.Query] and [client.Mutate] of [hasura/go-graphql-client] are the
    boundary of the engine.  One operation per query or mutation document the
    source sends, with the variables it sends; each answers with a transport
    error or with the decoded payload, and moves the remote world. *)

Record Payload (T : Type) := mkPayload {
  OK : bool;
  Error : option string;
  Entity : option T
}.
Arguments mkPayload {T}.
Arguments OK {T}.
Arguments Error {T}.
Arguments Entity {T}.

Class GraphQL (W : Type) := {
  Query_remoteNetworks : nat → W → result (list RemoteNetwork.t) * W;
  Query_resources : nat → W → result (list Resource.t) * W;
  Mutate_remoteNetworkCreate : string → W → result (Payload RemoteNetwork.t) * W;
  Mutate_resourceCreate :
    ResourceCreateInput.t → W → result (Payload Resource.t) * W;
  Mutate_resourceUpdate :
    string → string → string → string → W → result (Payload Resource.t) * W;
  Mutate_resourceDelete : string → W → result (Payload unit) * W
}.

(** [net.ParseIP] and [IP.To4] of the Go standard library. *)
Class NetLib := {
  IP : Type;
  ParseIP : string → option IP;
  To4 : IP → option IP
}.

(** The calls that cross the transport, with the variables sent. *)
Inductive Call :=
| CRemoteNetworks (first : nat)
| CResources (first : nat)
| CRemoteNetworkCreate (name : string)
| CResourceCreate (input : ResourceCreateInput.t)
| CResourceUpdate (id name address alias : string)
| CResourceDelete (id : string).

Definition is_query (c : Call) : bool :=
  match c with
  | CRemoteNetworks _ | CResources _ => true
  | _ => false
  end.

Definition is_delete (c : Call) : bool :=
  match c with CResourceDelete _ => true | _ => false end.

(** A run of the engine threads the remote world and a record of the calls
    made so far, each with whether the client method that made it reported
    success. *)
Record Session (W : Type) := mkSession {
  world : W;
  calls : list (Call * bool)
}.
Arguments mkSession {W}.
Arguments world {W}.
Arguments calls {W}.

Definition Eff (W A : Type) : Type := Session W → A * Session W.

Definition ret {W A} (a : A) : Eff W A := fun s => (a, s).

Definition bind {W A B} (m : Eff W A) (k : A → Eff W B) : Eff W B :=
  fun s => let '(a, s') := m s in k a s'.

Notation "'let*' x ':=' m 'in' k" := (bind m (fun x => k))
  (at level 10, x pattern, m at level 100, k at level 200, only parsing).

(** A loop over a slice that carries its local variables in [acc]. *)
Fixpoint forEach {W A S} (f : S → A → Eff W S) (acc : S) (l : list A) : Eff W S :=
  match l with
  | [] => ret acc
  | x :: l' => let* acc' := f acc x in forEach f acc' l'
  end.

(** One transport call: run it on the world, let the client method turn the
    answer into its own return value, record the call. *)
Definition perform {W A B} (c : Call) (run : W → result A * W)
    (finish : result A → result B) : Eff W (result B) :=
  fun s =>
    let '(answer, w) := run (world s) in
    let r := finish answer in
    (r, {| world := w; calls := calls s ++ [(c, is_Ok r)] |}).

Definition error_of {A} (r : result A) : option string :=
  match r with Ok _ => None | Err e => Some e end.

(** The shared tail of the mutating client methods: a payload that is not OK
    is an error carrying the server's message, an OK payload must hold an
    entity. *)
Definition unknown_error (e : option string) : string :=
  default "unknown error" e.

Definition entity_of {T} (what : string) (p : Payload T) : result T :=
  if negb (OK p)
  then Err (what +:+ " failed: " +:+ unknown_error (Error p))
  else match Entity p with
       | None => Err (what +:+ " succeeded but no entity returned")
       | Some e => Ok e
       end.

Section Engine.

Context {W : Type} `{!GraphQL W} `{!NetLib}.

(** *** [TwingateClient] ([graphql_client.go]) *)

Definition GetRemoteNetworks : Eff W (result (list RemoteNetwork.t)) :=
  perform (CRemoteNetworks 100) (Query_remoteNetworks 100)
    (fun answer =>
       match answer with
       | Err e => Err ("failed to query remote networks: " +:+ e)
       | Ok edges => Ok edges
       end).

Definition GetRemoteNetworkByName (name : string)
  : Eff W (result (option RemoteNetwork.t)) :=
  let* networks := GetRemoteNetworks in
  match networks with
  | Err e => ret (Err e)
  | Ok networks =>
      ret (Ok (List.find (fun network => String.eqb (RemoteNetwork.Name network) name)
                         networks))
  end.

Definition CreateRemoteNetwork (name : string) : Eff W (result RemoteNetwork.t) :=
  perform (CRemoteNetworkCreate name) (Mutate_remoteNetworkCreate name)
    (fun answer =>
       match answer with
       | Err e => Err ("failed to create remote network: " +:+ e)
       | Ok p => entity_of "remote network creation" p
       end).

Definition GetOrCreateRemoteNetwork (name : string) : Eff W (result RemoteNetwork.t) :=
  let* network := GetRemoteNetworkByName name in
  match network with
  | Err e => ret (Err e)
  | Ok (Some network) => ret (Ok network)
  | Ok None => CreateRemoteNetwork name
  end.

Definition GetResources (remoteNetworkID : string) : Eff W (result (list Resource.t)) :=
  perform (CResources 100) (Query_resources 100)
    (fun answer =>
       match answer with
       | Err e => Err ("failed to query resources: " +:+ e)
       | Ok edges =>
           Ok (List.filter
                 (fun node => String.eqb remoteNetworkID ""
                              || String.eqb (Resource.RemoteNetworkID node) remoteNetworkID)
                 edges)
       end).

Definition GetResourceByAlias (alias remoteNetworkID : string)
  : Eff W (result (option Resource.t)) :=
  let* resources := GetResources remoteNetworkID in
  match resources with
  | Err e => ret (Err e)
  | Ok resources =>
      ret (Ok (List.find
                 (fun resource =>
                    match Resource.Alias resource with
                    | Some a => String.eqb a alias
                    | None => false
                    end) resources))
  end.

Definition CreateResource (input : ResourceCreateInput.t) : Eff W (result Resource.t) :=
  perform (CResourceCreate input) (Mutate_resourceCreate input)
    (fun answer =>
       match answer with
       | Err e => Err ("failed to create resource: " +:+ e)
       | Ok p => entity_of "resource creation" p
       end).

(** Every variable of the mutation is sent; a nil field goes out as [""]. *)
Definition UpdateResource (input : ResourceUpdateInput.t) : Eff W (result Resource.t) :=
  let id := ResourceUpdateInput.ID input in
  let name := default "" (ResourceUpdateInput.Name input) in
  let address := default "" (ResourceUpdateInput.Address input) in
  let alias := default "" (ResourceUpdateInput.Alias input) in
  perform (CResourceUpdate id name address alias)
    (Mutate_resourceUpdate id name address alias)
    (fun answer =>
       match answer with
       | Err e => Err ("failed to update resource: " +:+ e)
       | Ok p => entity_of "resource update" p
       end).

Definition DeleteResource (resourceID : string) : Eff W (option string) :=
  let* r :=
    perform (CResourceDelete resourceID) (Mutate_resourceDelete resourceID)
      (fun answer =>
         match answer with
         | Err e => Err ("failed to delete resource: " +:+ e)
         | Ok p =>
             if negb (OK p)
             then Err ("resource deletion failed: " +:+ unknown_error (Error p))
             else Ok tt
         end) in
  ret (error_of r).

(** *** [ResourceSyncer] ([sync.go]) *)

Definition validateMapping (mapping : ResourceMapping) : option string :=
  if String.eqb (Name mapping) "" then Some "resource name cannot be empty"
  else if String.eqb (Address mapping) "" then Some "resource address cannot be empty"
  else match ParseIP (Address mapping) with
       | None => Some ("address '" +:+ Address mapping +:+ "' is not a valid IP address")
       | Some ip =>
           match To4 ip with
           | None => Some ("address '" +:+ Address mapping
                           +:+ "' is IPv6, but only IPv4 is currently supported")
           | Some _ => None
           end
       end.

Definition createNewResource (mapping : ResourceMapping) (remoteNetworkID : string)
  : Eff W (option string) :=
  let input :=
    {| ResourceCreateInput.Name := Name mapping;
       ResourceCreateInput.Address := Address mapping;
       ResourceCreateInput.RemoteNetworkID := remoteNetworkID;
       ResourceCreateInput.Alias := default "" (Alias mapping) |} in
  let* resource := CreateResource input in
  match resource with
  | Err e => ret (Some ("failed to create resource: " +:+ e))
  | Ok _ => ret None
  end.

Definition updateExistingResource (mapping : ResourceMapping) (existing : Resource.t)
  : Eff W (option string) :=
  let needsUpdate := false in
  let updateInput :=
    {| ResourceUpdateInput.ID := Resource.ID existing;
       ResourceUpdateInput.Name := Some (Resource.Name existing);
       ResourceUpdateInput.Address := Some (Resource.AddressValue existing);
       ResourceUpdateInput.Alias := Resource.Alias existing |} in
  let '(needsUpdate, updateInput) :=
    if negb (String.eqb (Resource.Name existing) (Name mapping))
    then (true,
          {| ResourceUpdateInput.ID := ResourceUpdateInput.ID updateInput;
             ResourceUpdateInput.Name := Some (Name mapping);
             ResourceUpdateInput.Address := ResourceUpdateInput.Address updateInput;
             ResourceUpdateInput.Alias := ResourceUpdateInput.Alias updateInput |})
    else (needsUpdate, updateInput) in
  let '(needsUpdate, updateInput) :=
    if negb (String.eqb (Resource.AddressValue existing) (Address mapping))
    then (true,
          {| ResourceUpdateInput.ID := ResourceUpdateInput.ID updateInput;
             ResourceUpdateInput.Name := ResourceUpdateInput.Name updateInput;
             ResourceUpdateInput.Address := Some (Address mapping);
             ResourceUpdateInput.Alias := ResourceUpdateInput.Alias updateInput |})
    else (needsUpdate, updateInput) in
  let currentAlias := default "" (Resource.Alias existing) in
  let desiredAlias := default "" (Alias mapping) in
  let '(needsUpdate, updateInput) :=
    if negb (String.eqb currentAlias desiredAlias)
    then (true,
          {| ResourceUpdateInput.ID := ResourceUpdateInput.ID updateInput;
             ResourceUpdateInput.Name := ResourceUpdateInput.Name updateInput;
             ResourceUpdateInput.Address := ResourceUpdateInput.Address updateInput;
             ResourceUpdateInput.Alias := Alias mapping |})
    else (needsUpdate, updateInput) in
  if negb needsUpdate then ret None
  else
    let* resource := UpdateResource updateInput in
    match resource with
    | Err e => ret (Some ("failed to update resource: " +:+ e))
    | Ok _ => ret None
    end.

Definition syncSingleResource (mapping : ResourceMapping) (remoteNetworkID : string)
  : Eff W (option string) :=
  match validateMapping mapping with
  | Some e => ret (Some ("invalid mapping: " +:+ e))
  | None =>
      let* existingResource :=
        match Alias mapping with
        | Some alias =>
            let* existingResource := GetResourceByAlias alias remoteNetworkID in
            match existingResource with
            | Err e => ret (Err ("failed to check for existing resource: " +:+ e))
            | Ok existingResource => ret (Ok existingResource)
            end
        | None =>
            let* resources := GetResources remoteNetworkID in
            match resources with
            | Err e => ret (Err ("failed to list resources: " +:+ e))
            | Ok resources =>
                ret (Ok (List.find
                           (fun res => String.eqb (Resource.Name res) (Name mapping))
                           resources))
            end
        end in
      match existingResource with
      | Err e => ret (Some e)
      | Ok (Some existingResource) => updateExistingResource mapping existingResource
      | Ok None => createNewResource mapping remoteNetworkID
      end
  end.

(** The body of the loop of [upsertResources], on its two counters. *)
Definition upsertStep (networkID : string) (counts : nat * nat)
    (mapping : ResourceMapping) : Eff W (nat * nat) :=
  let '(success, errors) := counts in
  let* err := syncSingleResource mapping networkID in
  match err with
  | Some _ => ret (success, S errors)
  | None => ret (S success, errors)
  end.

Definition upsertResources (mappings : list ResourceMapping) (networkID : string)
  : Eff W (nat * nat) :=
  forEach (upsertStep networkID) (0, 0) mappings.

(** [desiredNames], the [map[string]bool] built from the desired mappings;
    a missing key reads as [false]. *)
Definition desiredNames (desiredMappings : list ResourceMapping) : gmap string bool :=
  foldl (fun names mapping => <[Name mapping := true]> names) ∅ desiredMappings.

Definition staleResources (desiredMappings : list ResourceMapping)
    (existingResources : list Resource.t) : list Resource.t :=
  List.filter
    (fun resource =>
       negb (default false (desiredNames desiredMappings !! Resource.Name resource)))
    existingResources.

(** The body of the loop over the stale resources, on its two counters. *)
Definition deleteStep (cleanupConfig : CleanupConfig) (counts : nat * nat)
    (resource : Resource.t) : Eff W (nat * nat) :=
  let '(deleted, errors) := counts in
  if DryRun cleanupConfig then ret (S deleted, errors)
  else
    let* err := DeleteResource (Resource.ID resource) in
    match err with
    | Some _ => ret (deleted, S errors)
    | None => ret (S deleted, errors)
    end.

Definition deleteStaleResources (desiredMappings : list ResourceMapping)
    (networkID : string) (cleanupConfig : CleanupConfig) : Eff W (nat * nat) :=
  let* existingResources := GetResources networkID in
  match existingResources with
  | Err _ => ret (0, 1)
  | Ok existingResources =>
      let staleResources := staleResources desiredMappings existingResources in
      if (length staleResources =? 0)%nat then ret (0, 0)
      else forEach (deleteStep cleanupConfig) (0, 0) staleResources
  end.

Definition SyncResources (mappings : list ResourceMapping) (remoteNetworkName : string)
    (cleanupConfig : option CleanupConfig) : Eff W (option string) :=
  if (length mappings =? 0)%nat then ret None
  else
    let networkName :=
      if String.eqb remoteNetworkName "" then DefaultRemoteNetworkName
      else remoteNetworkName in
    let* network := GetOrCreateRemoteNetwork networkName in
    match network with
    | Err e => ret (Some ("failed to get or create remote network: " +:+ e))
    | Ok network =>
        let* (successCount, errorCount) :=
          upsertResources mappings (RemoteNetwork.ID network) in
        let* (deleteCount, deleteErrors) :=
          match cleanupConfig with
          | Some cfg =>
              if Enabled cfg
              then deleteStaleResources mappings (RemoteNetwork.ID network) cfg
              else ret (0, 0)
          | None => ret (0, 0)
          end in
        let totalErrors := errorCount + deleteErrors in
        if (0 <? totalErrors)%nat
        then ret (Some ("sync completed with " +:+ pretty totalErrors
                        +:+ " errors (upsert: " +:+ pretty errorCount
                        +:+ ", delete: " +:+ pretty deleteErrors +:+ ")"))
        else ret None
    end.

Definition GetSyncSummary (mappings : list ResourceMapping) (remoteNetworkName : string)
  : Eff W (result SyncSummary.t) :=
  let summary :=
    {| SyncSummary.TotalMappings := length mappings;
       SyncSummary.RemoteNetworkAction := "";
       SyncSummary.RemoteNetworkName := "";
       SyncSummary.RemoteNetworkID := "";
       SyncSummary.ResourcesToCreate := 0;
       SyncSummary.ResourcesToUpdate := 0 |} in
  if (length mappings =? 0)%nat then ret (Ok summary)
  else
    let networkName :=
      if String.eqb remoteNetworkName "" then DefaultRemoteNetworkName
      else remoteNetworkName in
    let* network := GetRemoteNetworkByName networkName in
    match network with
    | Err e => ret (Err ("failed to check remote network: " +:+ e))
    | Ok network =>
        let '(action, name, id) :=
          match network with
          | None => ("create", networkName, "")
          | Some network =>
              ("use_existing", RemoteNetwork.Name network, RemoteNetwork.ID network)
          end in
        let* (toCreate, toUpdate) :=
          forEach (fun '(toCreate, toUpdate) mapping =>
            match network with
            | Some network =>
                let* existing :=
                  match Alias mapping with
                  | Some alias => GetResourceByAlias alias (RemoteNetwork.ID network)
                  | None =>
                      let* resources := GetResources (RemoteNetwork.ID network) in
                      match resources with
                      | Err e => ret (Err e)
                      | Ok resources =>
                          ret (Ok (List.find
                                     (fun res =>
                                        String.eqb (Resource.Name res) (Name mapping))
                                     resources))
                      end
                  end in
                match existing with
                | Err _ => ret (toCreate, toUpdate)
                | Ok (Some _) => ret (toCreate, S toUpdate)
                | Ok None => ret (S toCreate, toUpdate)
                end
            | None => ret (S toCreate, toUpdate)
            end) (0, 0) mappings in
        ret (Ok {| SyncSummary.TotalMappings := length mappings;
                   SyncSummary.RemoteNetworkAction := action;
                   SyncSummary.RemoteNetworkName := name;
                   SyncSummary.RemoteNetworkID := id;
                   SyncSummary.ResourcesToCreate := toCreate;
                   SyncSummary.ResourcesToUpdate := toUpdate |})
    end.

End Engine.

(** ** A remote inventory to run the engine against

    The remote service as the Remote Inventory contract describes it: a list
    call answers with one page of at most [first] entries, taken from the
    start of the inventory; mutations answer with an explicit OK or not-OK
    payload.  [reachable_for] bounds the calls that still get through
    ([Some n]: the next [n] calls are answered, every later one fails at the
    transport; [None]: no bound), and [undeletable] names the resources whose
    deletion the service refuses. *)
Module Inventory.

Record t := mk {
  networks : list RemoteNetwork.t;
  resources : list Resource.t;
  reachable_for : option nat;
  undeletable : list string
}.

Definition with_budget (w : t) (budget : option nat) : t :=
  {| networks := networks w; resources := resources w;
     reachable_for := budget; undeletable := undeletable w |}.

Definition with_resources (w : t) (rs : list Resource.t) : t :=
  {| networks := networks w; resources := rs;
     reachable_for := reachable_for w; undeletable := undeletable w |}.

Definition answer {A} (w : t) (serve : t → result A * t) : result A * t :=
  match reachable_for w with
  | None => serve w
  | Some 0 => (Err "connection refused", w)
  | Some (S n) => serve (with_budget w (Some n))
  end.

Definition createNetwork (name : string) (w : t) : result (Payload RemoteNetwork.t) * t :=
  let net := {| RemoteNetwork.ID := "net" +:+ pretty (length (networks w));
                RemoteNetwork.Name := name |} in
  (Ok {| OK := true; Error := None; Entity := Some net |},
   {| networks := networks w ++ [net]; resources := resources w;
      reachable_for := reachable_for w; undeletable := undeletable w |}).

Definition createResource (input : ResourceCreateInput.t) (w : t)
  : result (Payload Resource.t) * t :=
  let alias := ResourceCreateInput.Alias input in
  let res := {| Resource.ID := "res" +:+ pretty (length (resources w));
                Resource.Name := ResourceCreateInput.Name input;
                Resource.AddressValue := ResourceCreateInput.Address input;
                Resource.Alias := if String.eqb alias "" then None else Some alias;
                Resource.RemoteNetworkID := ResourceCreateInput.RemoteNetworkID input |} in
  (Ok {| OK := true; Error := None; Entity := Some res |},
   with_resources w (resources w ++ [res])).

Definition updateResource (id name address alias : string) (w : t)
  : result (Payload Resource.t) * t :=
  match List.find (fun r => String.eqb (Resource.ID r) id) (resources w) with
  | None => (Ok {| OK := false; Error := Some "resource not found"; Entity := None |}, w)
  | Some old =>
      let res := {| Resource.ID := id;
                    Resource.Name := name;
                    Resource.AddressValue := address;
                    Resource.Alias := if String.eqb alias "" then None else Some alias;
                    Resource.RemoteNetworkID := Resource.RemoteNetworkID old |} in
      (Ok {| OK := true; Error := None; Entity := Some res |},
       with_resources w
         (List.map (fun r => if String.eqb (Resource.ID r) id then res else r)
                   (resources w)))
  end.

Definition deleteResource (id : string) (w : t) : result (Payload unit) * t :=
  if existsb (String.eqb id) (undeletable w)
  then (Ok {| OK := false; Error := Some "deletion refused"; Entity := None |}, w)
  else (Ok {| OK := true; Error := None; Entity := None |},
        with_resources w
          (List.filter (fun r => negb (String.eqb (Resource.ID r) id)) (resources w))).

#[global] Instance graphql : GraphQL t := {
  Query_remoteNetworks first w :=
    answer w (fun w => (Ok (take first (networks w)), w));
  Query_resources first w :=
    answer w (fun w => (Ok (take first (resources w)), w));
  Mutate_remoteNetworkCreate name w := answer w (createNetwork name);
  Mutate_resourceCreate input w := answer w (createResource input);
  Mutate_resourceUpdate id name address alias w :=
    answer w (updateResource id name address alias);
  Mutate_resourceDelete id w := answer w (deleteResource id)
}.

(** A stand-in for [net.ParseIP]: dotted quads of decimal bytes are IPv4,
    anything else holding a colon is taken for IPv6. *)
Inductive ip := V4 | V6.

Definition is_digit (c : ascii) : bool :=
  (48 <=? nat_of_ascii c)%nat && (nat_of_ascii c <=? 57)%nat.

Fixpoint split_dots (s : string) (cur : list ascii) : list (list ascii) :=
  match s with
  | EmptyString => [rev cur]
  | String c s' =>
      if Ascii.eqb c "."%char then rev cur :: split_dots s' []
      else split_dots s' (c :: cur)
  end.

Definition is_byte (part : list ascii) : bool :=
  (0 <? length part)%nat && forallb is_digit part &&
  (foldl (fun n c => 10 * n + (nat_of_ascii c - 48)) 0 part <=? 255)%nat.

Definition dotted_quad (s : string) : bool :=
  let parts := split_dots s [] in
  (length parts =? 4)%nat && forallb is_byte parts.

#[global] Instance netlib : NetLib := {
  IP := ip;
  ParseIP s :=
    if dotted_quad s then Some V4
    else if strings.Contains s ":" then Some V6 else None;
  To4 i := match i with V4 => Some V4 | V6 => None end
}.

Definition start (w : t) : Session t := {| world := w; calls := [] |}.

End Inventory.

(** ** Vocabulary of the statements *)

(** Every call a computation adds to the record satisfies [P]. *)
Definition emits {W A} (P : Call → Prop) (m : Eff W A) : Prop :=
  ∀ s, ∃ l, calls (m s).2 = calls s ++ l ∧ Forall (fun e => P e.1) l.

(** The filter of [GetResources]: an empty network ID keeps every node. *)
Definition in_network (remoteNetworkID : string) (node : Resource.t) : bool :=
  String.eqb remoteNetworkID ""
  || String.eqb (Resource.RemoteNetworkID node) remoteNetworkID.

(** A listed resource no desired mapping bears the name of. *)
Definition is_stale (desired : list ResourceMapping) (r : Resource.t) : bool :=
  bool_decide (Resource.Name r ∉ Name <$> desired).

(** The recorded calls that succeeded, and those that failed. *)
Definition succeeded (l : list (Call * bool)) : nat :=
  length (List.filter snd l).

Definition failed (l : list (Call * bool)) : nat :=
  length (List.filter (fun e => negb e.2) l).

(** The calls that create or update a remote entity. *)
Definition is_upsert (c : Call) : bool :=
  match c with
  | CRemoteNetworkCreate _ | CResourceCreate _ | CResourceUpdate _ _ _ _ => true
  | _ => false
  end.

(** A remote resource already holds what a mapping asks for, an absent alias
    being read as the empty alias on both sides. *)
Definition up_to_date (mapping : ResourceMapping) (existing : Resource.t) : Prop :=
  Resource.Name existing = Name mapping ∧
  Resource.AddressValue existing = Address mapping ∧
  default "" (Resource.Alias existing) = default "" (Alias mapping).

(** The lookup of [syncSingleResource] in a listing of the target network:
    by alias when the mapping has one, by name otherwise. *)
Definition findExisting (mapping : ResourceMapping) (listing : list Resource.t)
  : option Resource.t :=
  match Alias mapping with
  | Some alias =>
      List.find (fun resource =>
                   match Resource.Alias resource with
                   | Some a => String.eqb a alias
                   | None => false
                   end) listing
  | None => List.find (fun res => String.eqb (Resource.Name res) (Name mapping)) listing
  end.

(** A page of resources already holds a valid mapping unchanged: the lookup
    in the part of the page that lies in the target network finds a resource,
    and that resource is up to date. *)
Definition settled `{!NetLib} (networkID : string) (page : list Resource.t)
    (mapping : ResourceMapping) : Prop :=
  validateMapping mapping = None ∧
  ∃ existing,
    findExisting mapping (List.filter (in_network networkID) page) = Some existing ∧
    up_to_date mapping existing.

(** The name [SyncResources] and [GetSyncSummary] resolve. *)
Definition effectiveName (remoteNetworkName : string) : string :=
  if String.eqb remoteNetworkName "" then DefaultRemoteNetworkName
  else remoteNetworkName.

(** While the remote world stays within [I], both listings answer with the
    same pages. *)
Definition steady {W} `{!GraphQL W} (I : W → Prop)
    (nets : list RemoteNetwork.t) (page : list Resource.t) : Prop :=
  (∀ w, I w → (Query_remoteNetworks 100 w).1 = Ok nets ∧ I (Query_remoteNetworks 100 w).2) ∧
  (∀ w, I w → (Query_resources 100 w).1 = Ok page ∧ I (Query_resources 100 w).2).

(** The hosts of the endpoints found by the traversal, before consolidation. *)
Definition discoveredHosts (httpApp : App) : gset string :=
  list_to_set (Host <$> (map_to_list (scanServers httpApp)).*2).

(** The JSON form of a provisioned handler, as its configuration spells it:
    the module name under ["handler"], and for a subroute its routes under
    ["routes"], each with its matcher sets under ["match"] and its handlers
    under ["handle"]. *)
Fixpoint rawForm (handler : MiddlewareHandler) : RawMessage :=
  match handler with
  | ReverseProxyHandler => RawObject (Some "reverse_proxy") None
  | Subroute routes => RawObject (Some "subroute") (Some (rawRoute <$> routes))
  | OtherHandler module => RawObject (Some module) None
  end
with rawRoute (route : Route) : RawRoute :=
  match route with
  | mkRoute _ _ matcherSets handlers =>
      RawRouteObject matcherSets (rawForm <$> handlers)
  end.

(** ** Sample inputs *)

Definition proxyRoute (matchers : list Matcher) : Route :=
  mkRoute [matchers] [] [matchers] [ReverseProxyHandler].

(** One server with host [api.example.com] and path [/v1/*], and with host
    [app.example.com] and the two paths [/api/*] and [/admin/*], every leaf a
    reverse proxy. *)
Definition sampleApp : App :=
  {| Servers :=
       [("srv0",
         {| Routes :=
              [proxyRoute [MatchHost ["api.example.com"]; MatchPath ["/v1/*"]];
               mkRoute [[MatchHost ["app.example.com"]]] []
                       [[MatchHost ["app.example.com"]]]
                       [Subroute [proxyRoute [MatchPath ["/api/*"]];
                                  proxyRoute [MatchPath ["/admin/*"]]]]] |})] |}.

(** A subroute whose only route matches host [b.example.com] and proxies,
    reached under the inherited host [a.example.com]. *)
Definition nestedHostHandler : MiddlewareHandler :=
  Subroute [proxyRoute [MatchHost ["b.example.com"]]].

Definition outerContext : RouteContext :=
  {| Hosts := ["a.example.com"]; CtxPath := "" |}.

(** An inventory of one network holding three resources, none of them
    desired any more, of which the service refuses to delete the second. *)
Definition oldResource (id name : string) : Resource.t :=
  {| Resource.ID := id; Resource.Name := name;
     Resource.AddressValue := "10.0.0.1"; Resource.Alias := None;
     Resource.RemoteNetworkID := "net1" |}.

Definition threeStale : Inventory.t :=
  {| Inventory.networks :=
       [{| RemoteNetwork.ID := "net1"; RemoteNetwork.Name := "Caddy-Managed" |}];
     Inventory.resources :=
       [oldResource "res1" "old1.example.com";
        oldResource "res2" "old2.example.com";
        oldResource "res3" "old3.example.com"];
     Inventory.reachable_for := None;
     Inventory.undeletable := ["res2"] |}.

Definition dryRun : CleanupConfig := {| Enabled := true; DryRun := true |}.
Definition wetRun : CleanupConfig := {| Enabled := true; DryRun := false |}.

(** The same inventory once no call gets through any more. *)
Definition cutOff : Inventory.t := Inventory.with_budget threeStale (Some 0).

(** One desired mapping, an inventory that already holds it unchanged, and
    a deadline that lets exactly two calls through: the network listing and
    the lookup of the upsert pass. *)
Definition apiMapping : ResourceMapping :=
  {| Name := "api.example.com"; Alias := Some "api.example.com";
     Address := "10.0.0.1" |}.

Definition apiResource : Resource.t :=
  {| Resource.ID := "res1"; Resource.Name := "api.example.com";
     Resource.AddressValue := "10.0.0.1"; Resource.Alias := Some "api.example.com";
     Resource.RemoteNetworkID := "net1" |}.

Definition inSync : Inventory.t :=
  {| Inventory.networks :=
       [{| RemoteNetwork.ID := "net1"; RemoteNetwork.Name := "Caddy-Managed" |}];
     Inventory.resources := [apiResource];
     Inventory.reachable_for := None;
     Inventory.undeletable := [] |}.

Definition expiring : Inventory.t := Inventory.with_budget inSync (Some 2).

(** A wildcard host has no alias; the remote resource of the same name and
    address holds the empty alias. *)
Definition wildcardMapping : ResourceMapping :=
  {| Name := "*.example.com"; Alias := None; Address := "10.0.0.1" |}.

Definition blankAliasResource : Resource.t :=
  {| Resource.ID := "res7"; Resource.Name := "*.example.com";
     Resource.AddressValue := "10.0.0.1"; Resource.Alias := Some "";
     Resource.RemoteNetworkID := "net1" |}.

(** An inventory of 101 networks and, in the last of them, 101 resources. *)
Definition numberedNetwork (i : nat) : RemoteNetwork.t :=
  {| RemoteNetwork.ID := "net" +:+ pretty i;
     RemoteNetwork.Name := "network-" +:+ pretty i |}.

Definition numberedResource (i : nat) : Resource.t :=
  {| Resource.ID := "res" +:+ pretty i;
     Resource.Name := "host" +:+ pretty i +:+ ".example.com";
     Resource.AddressValue := "10.0.0.1";
     Resource.Alias := Some ("host" +:+ pretty i +:+ ".example.com");
     Resource.RemoteNetworkID := "net100" |}.

Definition crowded : Inventory.t :=
  {| Inventory.networks := numberedNetwork <$> seq 0 101;
     Inventory.resources := numberedResource <$> seq 0 101;
     Inventory.reachable_for := None;
     Inventory.undeletable := [] |}.

(** An inventory of 101 resources of which only the first lies in network
    [net1]; the others, up to the last, lie in [net100]. *)
Definition twoNetworks : Inventory.t :=
  {| Inventory.networks := [numberedNetwork 1; numberedNetwork 100];
     Inventory.resources := apiResource :: (numberedResource <$> seq 0 100);
     Inventory.reachable_for := None;
     Inventory.undeletable := [] |}.

(** An inventory whose only network has the empty name. *)
Definition namelessOnly : Inventory.t :=
  {| Inventory.networks := [{| RemoteNetwork.ID := "net0"; RemoteNetwork.Name := "" |}];
     Inventory.resources := [];
     Inventory.reachable_for := None;
     Inventory.undeletable := [] |}.

(** ** Further vocabulary

    What the statements beyond the frozen claims speak of. *)

(** The shape of a normalized path: empty, or ending with a slash without
    being the bare slash. *)
Definition normalized (path : string) : Prop :=
  path = "" ∨ (path ≠ "/" ∧ ∃ q, path = q +:+ "/").

(** A host string free of the separator byte of [CanonicalKey]. *)
Definition nul_free (host : string) : Prop :=
  ¬ In Ascii.zero (list_ascii_of_string host).

(** The hosts [emitEndpoints] emits for: those of the context, or the
    synthetic [localhost] when the context has none. *)
Definition emittedHosts (ctx : RouteContext) : list string :=
  match Hosts ctx with [] => ["localhost"] | _ => Hosts ctx end.

(** Every entry of an endpoint map sits under its own canonical key and
    holds a normalized path. *)
Definition well_keyed (endpointMap : gmap string Endpoint) : Prop :=
  ∀ k e, endpointMap !! k = Some e → k = CanonicalKey e ∧ normalized (Path e).

(** What a matcher contributes to the context: a host matcher its host
    list, a path matcher with at least one pattern its first pattern,
    normalized. *)
Definition hostsOf (matcher : Matcher) : option (list string) :=
  match matcher with MatchHost hosts => Some hosts | _ => None end.

Definition pathOf (matcher : Matcher) : option string :=
  match matcher with
  | MatchPath (p0 :: _) => Some (normalizePath p0)
  | _ => None
  end.

(** ** The rest of the client, and the application ([twingate.go]) *)

Module TwingateApp.
Record t := mk {
  Tenant : string;
  RemoteNetwork : string;
  CaddyAddress : string;
  ResourceCleanup : option CleanupConfig;
  lastSync : nat
}.
End TwingateApp.

(** What the application reads from its host runtime besides the remote
    service: the environment variable [TWINGATE_API_KEY], the outcome of the
    UDP dial of [GetOutboundIP] (the local address on success), what
    [ctx.App("http")] returns (an error, an app of another type, or the HTTP
    app), and the clock, as a count of time units. *)
Record Runtime := mkRuntime {
  apiKey : string;
  dial : result string;
  httpApp : result (option App);
  now : nat
}.

Definition set_lastSync (t : TwingateApp.t) (time : nat) : TwingateApp.t :=
  {| TwingateApp.Tenant := TwingateApp.Tenant t;
     TwingateApp.RemoteNetwork := TwingateApp.RemoteNetwork t;
     TwingateApp.CaddyAddress := TwingateApp.CaddyAddress t;
     TwingateApp.ResourceCleanup := TwingateApp.ResourceCleanup t;
     TwingateApp.lastSync := time |}.

Definition GetOutboundIP (rt : Runtime) : result string :=
  match dial rt with
  | Err e => Err ("failed to detect outbound IP: " +:+ e)
  | Ok ip => Ok ip
  end.

Definition resolveCaddyAddress (t : TwingateApp.t) (rt : Runtime) : result string :=
  if negb (String.eqb (TwingateApp.CaddyAddress t) "") then Ok (TwingateApp.CaddyAddress t)
  else
    match GetOutboundIP rt with
    | Err e =>
        Err ("failed to resolve Caddy address: " +:+ e
             +:+ ". Consider setting caddy_address explicitly in Twingate config")
    | Ok ip => Ok ip
    end.

Definition Validate (t : TwingateApp.t) (rt : Runtime) : option string :=
  if String.eqb (TwingateApp.Tenant t) "" then Some "tenant is required"
  else if String.eqb (apiKey rt) ""
       then Some "TWINGATE_API_KEY environment variable is required"
       else None.

Section Application.

Context {W : Type} `{!GraphQL W} `{!NetLib}.

(** [TestConnection] asks for [remoteNetworks(first: 1)] and discards the
    answer. *)
Definition TestConnection : Eff W (option string) :=
  let* r :=
    perform (CRemoteNetworks 1) (Query_remoteNetworks 1)
      (fun answer =>
         match answer with
         | Err e => Err ("API connection test failed: " +:+ e)
         | Ok _ => Ok tt
         end) in
  ret (error_of r).

Definition CreateOrUpdateResource (mapping : ResourceMapping) (remoteNetworkID : string)
  : Eff W (result Resource.t) :=
  let lookupAlias := default (Name mapping) (Alias mapping) in
  let* existing := GetResourceByAlias lookupAlias remoteNetworkID in
  match existing with
  | Err e => ret (Err ("failed to check for existing resource: " +:+ e))
  | Ok (Some existing) =>
      UpdateResource
        {| ResourceUpdateInput.ID := Resource.ID existing;
           ResourceUpdateInput.Name := Some (Name mapping);
           ResourceUpdateInput.Address := Some (Address mapping);
           ResourceUpdateInput.Alias := Alias mapping |}
  | Ok None =>
      CreateResource
        {| ResourceCreateInput.Name := Name mapping;
           ResourceCreateInput.Address := Address mapping;
           ResourceCreateInput.RemoteNetworkID := remoteNetworkID;
           ResourceCreateInput.Alias := default "" (Alias mapping) |}
  end.

(** [performSync] from the discovered endpoints on; the second component of
    the result is the application with its [lastSync] field as the call
    leaves it. *)
Definition syncEndpoints (t : TwingateApp.t) (rt : Runtime) (caddyAddress : string)
    (endpoints : list Endpoint) : Eff W (option string * TwingateApp.t) :=
  if (length endpoints =? 0)%nat then ret (None, t)
  else
    let mappings := ToResourceMapping caddyAddress <$> endpoints in
    let* err :=
      SyncResources mappings (TwingateApp.RemoteNetwork t)
                    (TwingateApp.ResourceCleanup t) in
    match err with
    | Some e => ret (Some ("failed to sync resources: " +:+ e), t)
    | None => ret (None, set_lastSync t (now rt))
    end.

(** [performSync], the discovery visiting its maps in the order of
    [DiscoverEndpoints]. *)
Definition performSync (t : TwingateApp.t) (rt : Runtime)
  : Eff W (option string * TwingateApp.t) :=
  match resolveCaddyAddress t rt with
  | Err e => ret (Some e, t)
  | Ok caddyAddress =>
      match httpApp rt with
      | Err e => ret (Some ("failed to get HTTP app: " +:+ e), t)
      | Ok None => ret (Some "HTTP app is not of expected type", t)
      | Ok (Some app) => syncEndpoints t rt caddyAddress (DiscoverEndpoints app)
      end
  end.

Definition TriggerSync (t : TwingateApp.t) (rt : Runtime)
  : Eff W (option string * TwingateApp.t) :=
  performSync t rt.

Definition Provision (t : TwingateApp.t) (rt : Runtime)
  : Eff W (option string * TwingateApp.t) :=
  if String.eqb (TwingateApp.Tenant t) "" then ret (Some "tenant is required", t)
  else if String.eqb (apiKey rt) ""
  then ret (Some "TWINGATE_API_KEY environment variable is required", t)
  else
    let* err := TestConnection in
    match err with
    | Some e => ret (Some ("failed to connect to Twingate API: " +:+ e), t)
    | None =>
        let* (err, t') := performSync t rt in
        match err with
        | Some e => ret (Some ("initial sync failed: " +:+ e), t')
        | None => ret (None, t')
        end
    end.

End Application.

(** A create or update call carries the name, the address and the alias of
    one of the mappings; the other calls are not constrained. *)
Definition carries (mappings : list ResourceMapping) (c : Call) : Prop :=
  match c with
  | CResourceCreate input =>
      ∃ m, m ∈ mappings ∧
           ResourceCreateInput.Name input = Name m ∧
           ResourceCreateInput.Address input = Address m ∧
           ResourceCreateInput.Alias input = default "" (Alias m)
  | CResourceUpdate _ name address alias =>
      ∃ m, m ∈ mappings ∧ name = Name m ∧ address = Address m ∧
           alias = default "" (Alias m)
  | _ => True
  end.

(** The events a computation adds to the record. *)
Definition added {W A} (m : Eff W A) (s : Session W) : list (Call * bool) :=
  drop (length (calls s)) (calls (m s).2).

(** Whenever the outcome of a computation counts as a success, every call it
    made succeeded. *)
Definition sound {W A} (success : A → Prop) (m : Eff W A) : Prop :=
  ∀ s, ∃ l, calls (m s).2 = calls s ++ l ∧
            (success (m s).1 → Forall (fun e => e.2 = true) l).

Definition no_error (err : option string) : Prop := err = None.

(** Two mappings that fail validation: an IPv6 address, and an empty name. *)
Definition ipv6Mapping : ResourceMapping :=
  {| Name := "v6.example.com"; Alias := Some "v6.example.com";
     Address := "::1" |}.

Definition namelessMapping : ResourceMapping :=
  {| Name := ""; Alias := None; Address := "10.0.0.1" |}.

(** The body of the classification loop of [GetSyncSummary], on its two
    counters, for the network found ([None]: no such network yet). *)
Definition summaryStep {W : Type} `{!GraphQL W} (network : option RemoteNetwork.t)
  : nat * nat → ResourceMapping → Eff W (nat * nat) :=
  fun '(toCreate, toUpdate) mapping =>
  match network with
  | Some network =>
      let* existing :=
        match Alias mapping with
        | Some alias => GetResourceByAlias alias (RemoteNetwork.ID network)
        | None =>
            let* resources := GetResources (RemoteNetwork.ID network) in
            match resources with
            | Err e => ret (Err e)
            | Ok resources =>
                ret (Ok (List.find
                           (fun res => String.eqb (Resource.Name res) (Name mapping))
                           resources))
            end
        end in
      match existing with
      | Err _ => ret (toCreate, toUpdate)
      | Ok (Some _) => ret (toCreate, S toUpdate)
      | Ok None => ret (S toCreate, toUpdate)
      end
  | None => ret (S toCreate, toUpdate)
  end.

(** What [performSync] may send for an application: creates and updates
    carry the resolved address and the name of a discovered host. *)
Definition announces (app : App) (caddyAddress : string) (c : Call) : Prop :=
  match c with
  | CResourceCreate input =>
      ResourceCreateInput.Address input = caddyAddress ∧
      ResourceCreateInput.Name input ∈ discoveredHosts app
  | CResourceUpdate _ name address _ =>
      address = caddyAddress ∧ name ∈ discoveredHosts app
  | _ => True
  end.

(** An application configured with tenant, address and a live cleanup
    policy, and a runtime that serves the sample routes. *)
Definition sampleTwingate : TwingateApp.t :=
  {| TwingateApp.Tenant := "acme";
     TwingateApp.RemoteNetwork := "";
     TwingateApp.CaddyAddress := "10.0.0.1";
     TwingateApp.ResourceCleanup := Some wetRun;
     TwingateApp.lastSync := 0 |}.

Definition sampleRuntime : Runtime :=
  {| apiKey := "secret";
     dial := Err "network is unreachable";
     httpApp := Ok (Some sampleApp);
     now := 42 |}.

(** The same runtime serving an application without any route. *)
Definition idleRuntime : Runtime :=
  {| apiKey := "secret";
     dial := Err "network is unreachable";
     httpApp := Ok (Some {| Servers := [("srv0", {| Routes := [] |})] |});
     now := 42 |}.

(** The cleanup policies under which nothing may be deleted: none, disabled,
    or dry run. *)
Definition cleanup_harmless (cleanupConfig : option CleanupConfig) : Prop :=
  match cleanupConfig with
  | None => True
  | Some cfg => Enabled cfg = false ∨ DryRun cfg = true
  end.

(** * Properties *)

(** ** Strings *)

Section StringFacts.

Lemma app_nil (s : string) : "" +:+ s = s.
Proof. reflexivity. Qed.

Lemma app_cons (c : ascii) (q s : string) : String c q +:+ s = String c (q +:+ s).
Proof. reflexivity. Qed.

Lemma length_app (q s : string) :
  String.length (q +:+ s) = String.length q + String.length s.
Proof.
  induction q as [|c q IH]; [done |].
  rewrite app_cons. simpl. by rewrite IH.
Qed.

Lemma substring_all (s : string) : substring 0 (String.length s) s = s.
Proof. induction s as [|c s IH]; simpl; [done | by rewrite IH]. Qed.

Lemma substring_head (q s : string) :
  substring 0 (String.length q) (q +:+ s) = q.
Proof.
  induction q as [|c q IH].
  - rewrite app_nil. by destruct s.
  - rewrite app_cons. simpl. by rewrite IH.
Qed.

Lemma substring_tail (q s : string) :
  substring (String.length q) (String.length s) (q +:+ s) = s.
Proof.
  induction q as [|c q IH]; [apply substring_all |].
  rewrite app_cons. simpl. apply IH.
Qed.

Lemma substring_split (n : nat) (s : string) :
  (n ≤ String.length s)%nat →
  s = substring 0 n s +:+ substring n (String.length s - n) s.
Proof.
  revert n. induction s as [|c s IH]; intros n Hn; simpl in *.
  - by destruct n.
  - destruct n as [|n]; simpl.
    + by rewrite substring_all.
    + rewrite app_cons. f_equal. apply IH. lia.
Qed.

Lemma HasSuffix_spec (s suffix : string) :
  strings.HasSuffix s suffix = true ↔ ∃ q, s = q +:+ suffix.
Proof.
  unfold strings.HasSuffix. rewrite andb_true_iff, Nat.leb_le, String.eqb_eq.
  split.
  - intros [Hlen Hsub]. exists (substring 0 (String.length s - String.length suffix) s).
    pose proof (substring_split (String.length s - String.length suffix) s) as Hs.
    replace (String.length s - (String.length s - String.length suffix))
      with (String.length suffix) in Hs by lia.
    rewrite Hsub in Hs. apply Hs. lia.
  - intros [q ->]. rewrite length_app. split; [lia |].
    replace (String.length q + String.length suffix - String.length suffix)
      with (String.length q) by lia.
    apply substring_tail.
Qed.

Lemma app_inj_tail (q q' s : string) : q +:+ s = q' +:+ s → q = q'.
Proof.
  revert q'. induction q as [|c q IH]; intros [|c' q'] H;
    rewrite ?app_nil, ?app_cons in H.
  - done.
  - apply (f_equal String.length) in H. simpl in H. rewrite length_app in H. lia.
  - apply (f_equal String.length) in H. simpl in H. rewrite length_app in H. lia.
  - injection H as -> H. f_equal. by apply IH.
Qed.

(** [TrimSuffix] removes the suffix exactly when the string ends with it. *)
Lemma TrimSuffix_app (q suffix : string) : strings.TrimSuffix (q +:+ suffix) suffix = q.
Proof.
  unfold strings.TrimSuffix.
  assert (strings.HasSuffix (q +:+ suffix) suffix = true) as ->
    by (apply HasSuffix_spec; eauto).
  rewrite length_app.
  replace (String.length q + String.length suffix - String.length suffix)
    with (String.length q) by lia.
  apply substring_head.
Qed.

Lemma TrimSuffix_none (s suffix : string) :
  (∀ q, s ≠ q +:+ suffix) → strings.TrimSuffix s suffix = s.
Proof.
  intros Hno. unfold strings.TrimSuffix.
  destruct (strings.HasSuffix s suffix) eqn:E; [| done].
  apply HasSuffix_spec in E as [q ->]. by destruct (Hno q).
Qed.

Lemma prefix_char (c : ascii) (s : string) :
  String.prefix (String c EmptyString) s = true ↔ ∃ s', s = String c s'.
Proof.
  destruct s as [|c' s']; simpl.
  - split; [done | by intros [? ?]].
  - destruct (ascii_dec c c') as [->|Hne].
    + split; [eauto | by destruct s'].
    + split; [done | intros [? [= -> _]]; done].
Qed.

(** [Contains s "c"] holds exactly when the byte [c] occurs in [s]. *)
Lemma Contains_char (c : ascii) (s : string) :
  strings.Contains s (String c EmptyString) = true ↔ In c (list_ascii_of_string s).
Proof.
  induction s as [|c' s IH].
  - simpl. split; [done | tauto].
  - cbn [strings.Contains list_ascii_of_string In].
    rewrite orb_true_iff, IH, prefix_char. split.
    + intros [[s' [= -> _]] | H]; tauto.
    + intros [-> | H]; eauto.
Qed.

End StringFacts.

(** ** Route discoverer *)

(** C7.  [normalizePath] first strips one trailing wildcard: with [stripped]
    the input without a final ["*"] (the input itself when it has none), the
    result is [""] when [stripped] is [""] or ["/"], [stripped] itself when
    it already ends with ["/"], and [stripped] followed by ["/"] otherwise.
    In particular ["/api/*"] and ["/api"] give ["/api/"], ["/"] and ["/*"]
    give [""], and ["/admin/*"] gives ["/admin/"]. *)
Theorem normalizePath_spec (path : string) :
  let stripped := strings.TrimSuffix path "*" in
  ((∀ q, path = q +:+ "*" → stripped = q) ∧
   ((∀ q, path ≠ q +:+ "*") → stripped = path)) ∧
  ((stripped = "" ∨ stripped = "/") → normalizePath path = "") ∧
  (stripped ≠ "/" → (∃ q, stripped = q +:+ "/") → normalizePath path = stripped) ∧
  (stripped ≠ "" → (∀ q, stripped ≠ q +:+ "/") →
     normalizePath path = stripped +:+ "/") ∧
  normalizePath "/api/*" = "/api/" ∧
  normalizePath "/api" = "/api/" ∧
  normalizePath "/" = "" ∧
  normalizePath "/admin/*" = "/admin/" ∧
  normalizePath "/*" = "".
Proof.
  intros stripped.
  split; [split |].
  - intros q ->. apply TrimSuffix_app.
  - apply TrimSuffix_none.
  - unfold normalizePath. fold stripped.
    split; [| split; [| split]].
    + intros [-> | ->]; reflexivity.
    + intros Hne [q Hq].
      assert (strings.HasSuffix stripped "/" = true) as ->
        by (apply HasSuffix_spec; eauto).
      rewrite andb_false_r.
      by apply String.eqb_neq in Hne as ->.
    + intros Hne Hno.
      assert (stripped ≠ "/") as Hne' by (intros E; by apply (Hno "")).
      assert (strings.HasSuffix stripped "/" = false) as ->.
      { destruct (strings.HasSuffix stripped "/") eqn:E; [| done].
        apply HasSuffix_spec in E as [q Hq]. by destruct (Hno q). }
      assert ((stripped =? "")%string = false) as -> by (by apply String.eqb_neq).
      assert ((stripped =? "/")%string = false) as -> by (by apply String.eqb_neq).
      simpl. destruct (String.eqb_spec (stripped +:+ "/") "/") as [E|]; [| done].
      by apply (app_inj_tail stripped "" "/") in E.
    + repeat split; reflexivity.
Qed.

(** C8.  [ResourceAlias] is absent exactly when the byte ["*"] occurs in the
    host, and is the host itself otherwise. *)
Theorem ResourceAlias_spec (e : Endpoint) :
  (ResourceAlias e = None ↔ In "*"%char (list_ascii_of_string (Host e))) ∧
  (¬ In "*"%char (list_ascii_of_string (Host e)) → ResourceAlias e = Some (Host e)).
Proof.
  unfold ResourceAlias.
  pose proof (Contains_char "*" (Host e)) as Hc.
  destruct (strings.Contains (Host e) "*"); split.
  - split; [intros _; by apply Hc | done].
  - intros Hn. destruct Hn. by apply Hc.
  - split; [done |]. intros Hin. apply Hc in Hin. done.
  - done.
Qed.

Section HostConsolidation.

Lemma dedup_fold_lookup (endpoints : list Endpoint) (acc : gmap string Endpoint)
    (h : string) :
  foldl dedupStep acc endpoints !! h =
  match acc !! h with
  | Some e => Some e
  | None => if decide (h ∈ Host <$> endpoints)
            then Some {| Host := h; Path := "" |} else None
  end.
Proof.
  revert acc. induction endpoints as [|ep eps IH]; intros acc; simpl.
  - by destruct (acc !! h).
  - rewrite IH. unfold dedupStep at 1.
    destruct (decide (h = Host ep)) as [->|Hne].
    + destruct (acc !! Host ep) as [e|] eqn:E.
      * by rewrite E.
      * rewrite lookup_insert_eq, decide_True; [done | set_solver].
    + assert ((match acc !! Host ep with
               | Some _ => acc
               | None => <[Host ep := {| Host := Host ep; Path := "" |}]> acc
               end) !! h = acc !! h) as ->.
      { destruct (acc !! Host ep); [done | by rewrite lookup_insert_ne]. }
      destruct (acc !! h); [done |].
      destruct (decide (h ∈ Host <$> eps)) as [Hin|Hnin].
      * rewrite decide_True; [done | by apply list_elem_of_further].
      * rewrite decide_False; [done |].
        rewrite elem_of_cons. by intros [?|?].
Qed.

Lemma dedupByHost_lookup (endpoints : list Endpoint) (h : string) :
  dedupByHost endpoints !! h =
  if decide (h ∈ Host <$> endpoints) then Some {| Host := h; Path := "" |} else None.
Proof. unfold dedupByHost. by rewrite dedup_fold_lookup, lookup_empty. Qed.

(** What a range over the host map yields: the consolidated endpoint of
    every host that occurs, and nothing else. *)
Lemma ranges_to_dedup_elem (endpoints result : list Endpoint) (e : Endpoint) :
  ranges_to (dedupByHost endpoints) result →
  e ∈ result ↔ Path e = "" ∧ Host e ∈ Host <$> endpoints.
Proof.
  unfold ranges_to. intros ->. rewrite list_elem_of_fmap. split.
  - intros [[k v] [-> Hkv]]. apply elem_of_map_to_list in Hkv.
    rewrite dedupByHost_lookup in Hkv. case_decide; [| done].
    by injection Hkv as <-.
  - intros [Hp Hh]. exists (Host e, e). split; [done |].
    apply elem_of_map_to_list. rewrite dedupByHost_lookup, decide_True by done.
    destruct e as [h p]. simpl in *. by subst.
Qed.

Lemma ranges_to_dedup_NoDup (endpoints result : list Endpoint) :
  ranges_to (dedupByHost endpoints) result → NoDup (Host <$> result).
Proof.
  unfold ranges_to. intros ->.
  assert (Host <$> (map_to_list (dedupByHost endpoints)).*2
          = (map_to_list (dedupByHost endpoints)).*1) as ->.
  { rewrite <- list_fmap_compose. apply list_fmap_ext.
    intros i [k v] Hkv. apply list_elem_of_lookup_2, elem_of_map_to_list in Hkv.
    rewrite dedupByHost_lookup in Hkv. case_decide; [| done].
    by injection Hkv as <-. }
  apply NoDup_fst_map_to_list.
Qed.

End HostConsolidation.

Lemma DiscoverEndpoints_is_result (httpApp : App) :
  DiscoverEndpoints_returns httpApp (DiscoverEndpoints httpApp).
Proof. eexists. split; unfold ranges_to; reflexivity. Qed.

(** The traversal of the sample finds three endpoints on two hosts, which
    consolidate into two. *)
Example scanServers_sample :
  (map_to_list (scanServers sampleApp)).*2 =
  [ {| Host := "api.example.com"; Path := "/v1/" |};
    {| Host := "app.example.com"; Path := "/admin/" |};
    {| Host := "app.example.com"; Path := "/api/" |} ].
Proof. vm_compute. reflexivity. Qed.

Example DiscoverEndpoints_sample :
  ToResourceMapping "10.0.0.1" <$> DiscoverEndpoints sampleApp =
  [ {| Name := "api.example.com"; Alias := Some "api.example.com";
       Address := "10.0.0.1" |};
    {| Name := "app.example.com"; Alias := Some "app.example.com";
       Address := "10.0.0.1" |} ].
Proof. vm_compute. reflexivity. Qed.

(** C1.  Whatever the routing tree and whatever order the two map-to-slice
    loops take, the endpoints [DiscoverEndpoints] returns are, up to order,
    one endpoint per distinct host found by the traversal, holding that host
    and the empty path; hosts do not repeat, and neither do the names of the
    resource mappings made from them. *)
Theorem DiscoverEndpoints_one_per_host
    (httpApp : App) (result : list Endpoint) (caddyAddress : string) :
  DiscoverEndpoints_returns httpApp result →
  result ≡ₚ (fun h => {| Host := h; Path := "" |}) <$> elements (discoveredHosts httpApp) ∧
  NoDup (Host <$> result) ∧
  NoDup (Name <$> (ToResourceMapping caddyAddress <$> result)).
Proof.
  intros (endpoints & Hscan & Hres).
  pose proof (ranges_to_dedup_NoDup _ _ Hres) as Hnd.
  split; [| split; [done |]].
  - apply NoDup_Permutation.
    + by apply NoDup_fmap_1 in Hnd.
    + apply NoDup_fmap_2; [| apply NoDup_elements].
      by intros h1 h2 [= ->].
    + assert (∀ h, h ∈ Host <$> endpoints ↔ h ∈ elements (discoveredHosts httpApp))
        as Hhosts.
      { intros h. unfold ranges_to in Hscan. rewrite Hscan, elem_of_elements.
        unfold discoveredHosts. by rewrite elem_of_list_to_set. }
      intros e. rewrite (ranges_to_dedup_elem _ _ e Hres), Hhosts.
      rewrite list_elem_of_fmap. split.
      * intros [Hp Hh]. exists (Host e). split; [| done].
        destruct e as [h p]; simpl in *; by subst.
      * by intros (h & -> & Hh).
  - by rewrite <- list_fmap_compose.
Qed.

Lemma DiscoverEndpoints_one_per_host_witness :
  DiscoverEndpoints_returns sampleApp (DiscoverEndpoints sampleApp) ∧
  DiscoverEndpoints sampleApp ≡ₚ
    (fun h => {| Host := h; Path := "" |}) <$> elements (discoveredHosts sampleApp) ∧
  NoDup (Host <$> DiscoverEndpoints sampleApp) ∧
  NoDup (Name <$> (ToResourceMapping "10.0.0.1" <$> DiscoverEndpoints sampleApp)).
Proof.
  assert (DiscoverEndpoints_returns sampleApp (DiscoverEndpoints sampleApp)) as H.
  { exists (map_to_list (scanServers sampleApp)).*2.
    split; unfold ranges_to; reflexivity. }
  split; [exact H |].
  exact (DiscoverEndpoints_one_per_host sampleApp (DiscoverEndpoints sampleApp)
           "10.0.0.1" H).
Defined.

(** *** The two handler representations *)

Lemma mergeMatchers_unprovisioned matchRaw handle (ctx : RouteContext) :
  mergeMatchers (mkRoute matchRaw handle [] []) ctx = ctx.
Proof. by destruct ctx. Qed.

(** A route decoded from JSON is traversed through its raw handlers, under
    the context it was reached with. *)
Lemma traverseRoute_decoded matchRaw handle ctx (endpointMap : gmap string Endpoint) :
  traverseRoute (mkRoute matchRaw handle [] []) ctx endpointMap =
  foldl (fun endpointMap handlerRaw => traverseHandlerRaw handlerRaw ctx endpointMap)
        endpointMap handle.
Proof.
  cbn [traverseRoute]. rewrite mergeMatchers_unprovisioned.
  by destruct handle.
Qed.

(** The subroute case of [traverseHandlerRaw] is the loop of the source:
    decode each element of ["routes"], skip it on failure, and call
    [traverseRoute] on the decoded route. *)
Lemma traverseHandlerRaw_subroute routes ctx (endpointMap : gmap string Endpoint) :
  traverseHandlerRaw (RawObject (Some "subroute") (Some routes)) ctx endpointMap =
  foldl (fun endpointMap routeAny =>
           match decodeRoute routeAny with
           | Some route => traverseRoute route ctx endpointMap
           | None => endpointMap
           end) endpointMap routes.
Proof.
  cbn [traverseHandlerRaw String.eqb Ascii.eqb Bool.eqb].
  revert endpointMap. induction routes as [|routeAny routes IH]; intros m; [done |].
  cbn [foldl]. rewrite <- IH. f_equal.
  destruct routeAny as [|matchRaw handle]; [done |].
  cbn [decodeRoute]. by rewrite traverseRoute_decoded.
Qed.

(** Both representations of a proxy leaf emit the same endpoints, and both
    representations of a handler of another module leave the map alone. *)
Lemma traverse_leaf_agree ctx (endpointMap : gmap string Endpoint) :
  traverseHandlerRaw (rawForm ReverseProxyHandler) ctx endpointMap =
  traverseHandler ReverseProxyHandler ctx endpointMap.
Proof. reflexivity. Qed.

Lemma traverse_opaque_agree module ctx (endpointMap : gmap string Endpoint) :
  module ≠ "reverse_proxy" → module ≠ "subroute" →
  traverseHandlerRaw (rawForm (OtherHandler module)) ctx endpointMap =
  traverseHandler (OtherHandler module) ctx endpointMap.
Proof.
  intros H1 H2. cbn [rawForm traverseHandlerRaw traverseHandler].
  apply String.eqb_neq in H1 as ->. by apply String.eqb_neq in H2 as ->.
Qed.

(** C9 (fails on the code).  A subroute whose nested route carries a host
    matcher: traversed as a provisioned handler the nested matcher replaces
    the inherited host, traversed in its JSON form the nested matcher is never
    looked at and the inherited host is emitted. *)
Theorem traverseHandlerRaw_drops_nested_matchers :
  (map_to_list (traverseHandler nestedHostHandler outerContext ∅)).*2
    = [ {| Host := "b.example.com"; Path := "" |} ] ∧
  (map_to_list (traverseHandlerRaw (rawForm nestedHostHandler) outerContext ∅)).*2
    = [ {| Host := "a.example.com"; Path := "" |} ].
Proof. split; vm_compute; reflexivity. Qed.

(** ** Reconciliation engine *)

Section EngineFacts.

Context {W : Type} `{!GraphQL W} `{!NetLib}.

Implicit Types (s : Session W) (desired mappings : list ResourceMapping).

Lemma emits_ret {A} P (a : A) : emits (W := W) P (ret a).
Proof. intros s. exists []. by rewrite app_nil_r. Qed.

Lemma emits_bind {A B} P (m : Eff W A) (k : A → Eff W B) :
  emits P m → (∀ a, emits P (k a)) → emits P (bind m k).
Proof.
  intros Hm Hk s. unfold bind.
  destruct (Hm s) as (l1 & E1 & F1). destruct (m s) as [a s1]. simpl in E1.
  destruct (Hk a s1) as (l2 & E2 & F2).
  exists (l1 ++ l2). rewrite E2, E1, app_assoc. split; [done |].
  by apply Forall_app.
Qed.

Lemma emits_perform {A B} P c (run : W → result A * W)
    (finish : result A → result B) :
  P c → emits P (perform c run finish).
Proof.
  intros Hc s. unfold perform. destruct (run (world s)) as [answer w].
  eexists. split; [reflexivity |]. by repeat constructor.
Qed.

Lemma emits_forEach {A S} P (f : S → A → Eff W S) (l : list A) :
  (∀ acc x, emits P (f acc x)) → ∀ acc, emits P (forEach f acc l).
Proof.
  intros Hf. induction l as [|x l IH]; intros acc; simpl.
  - apply emits_ret.
  - apply emits_bind; [apply Hf | intros acc'; apply IH].
Qed.

Lemma forEach_nil {A S} (f : S → A → Eff W S) acc s :
  forEach f acc [] s = (acc, s).
Proof. reflexivity. Qed.

Lemma forEach_cons {A S} (f : S → A → Eff W S) acc x l s :
  forEach f acc (x :: l) s = forEach f (f acc x s).1 l (f acc x s).2.
Proof. cbn [forEach]. unfold bind. by destruct (f acc x s). Qed.

Lemma emits_mono {A} (P Q : Call → Prop) (m : Eff W A) :
  (∀ c, P c → Q c) → emits P m → emits Q m.
Proof.
  intros HPQ Hm s. destruct (Hm s) as (l & E & F). exists l. split; [done |].
  eapply Forall_impl; [exact F | intros e; apply HPQ].
Qed.

(** *** What the listing calls do *)

Lemma GetRemoteNetworks_eq s :
  GetRemoteNetworks s =
  let '(answer, w) := Query_remoteNetworks 100 (world s) in
  let r := match answer with
           | Err e => Err ("failed to query remote networks: " +:+ e)
           | Ok edges => Ok edges
           end in
  (r, {| world := w; calls := calls s ++ [(CRemoteNetworks 100, is_Ok r)] |}).
Proof. reflexivity. Qed.

Lemma GetResources_eq remoteNetworkID s :
  GetResources remoteNetworkID s =
  let '(answer, w) := Query_resources 100 (world s) in
  let r := match answer with
           | Err e => Err ("failed to query resources: " +:+ e)
           | Ok edges => Ok (List.filter (in_network remoteNetworkID) edges)
           end in
  (r, {| world := w; calls := calls s ++ [(CResources 100, is_Ok r)] |}).
Proof. reflexivity. Qed.

Lemma GetResources_calls remoteNetworkID s :
  calls (GetResources remoteNetworkID s).2 =
  calls s ++ [(CResources 100, is_Ok (GetResources remoteNetworkID s).1)].
Proof.
  rewrite GetResources_eq. by destruct (Query_resources 100 (world s)) as [[?|?] ?].
Qed.

(** *** Stale resources *)

Lemma desiredNames_fold desired (acc : gmap string bool) (n : string) :
  foldl (fun names mapping => <[Name mapping := true]> names) acc desired !! n =
  if decide (n ∈ Name <$> desired) then Some true else acc !! n.
Proof.
  revert acc. induction desired as [|m desired IH]; intros acc; simpl; [done |].
  rewrite IH. destruct (decide (n ∈ Name <$> desired)) as [Hin|Hnin].
  - rewrite decide_True; [done | by apply list_elem_of_further].
  - destruct (decide (n = Name m)) as [->|Hne].
    + rewrite lookup_insert_eq, decide_True; [done | by apply list_elem_of_here].
    + rewrite lookup_insert_ne by done. rewrite decide_False; [done |].
      rewrite elem_of_cons. by intros [?|?].
Qed.

(** A resource is stale exactly when no desired mapping bears its name. *)
Lemma staleResources_spec desired (existingResources : list Resource.t) :
  staleResources desired existingResources =
  List.filter (is_stale desired) existingResources.
Proof.
  unfold staleResources. apply List.filter_ext. intros r.
  unfold desiredNames, is_stale. rewrite desiredNames_fold, lookup_empty.
  destruct (decide (Resource.Name r ∈ Name <$> desired)) as [Hin|Hnin]; simpl.
  - symmetry. apply bool_decide_eq_false. by intros Hn.
  - symmetry. by apply bool_decide_eq_true.
Qed.

End EngineFacts.

Section Cleanup.

Context {W : Type} `{!GraphQL W} `{!NetLib}.

Implicit Types (s : Session W) (desired : list ResourceMapping).

Lemma deleteStep_dry cfg (r : Resource.t) deleted errors s :
  DryRun cfg = true → deleteStep cfg (deleted, errors) r s = ((S deleted, errors), s).
Proof. intros Hdry. unfold deleteStep. by rewrite Hdry. Qed.

Lemma deleteStep_wet cfg (r : Resource.t) deleted errors s :
  DryRun cfg = false →
  deleteStep cfg (deleted, errors) r s =
  (match (DeleteResource (Resource.ID r) s).1 with
   | Some _ => (deleted, S errors)
   | None => (S deleted, errors)
   end, (DeleteResource (Resource.ID r) s).2).
Proof.
  intros Hdry. unfold deleteStep, bind. rewrite Hdry.
  by destruct (DeleteResource (Resource.ID r) s) as [[e|] s1].
Qed.

Lemma deleteLoop_dry cfg (stale : list Resource.t) deleted errors s :
  DryRun cfg = true →
  forEach (deleteStep cfg) (deleted, errors) stale s
  = ((deleted + length stale, errors), s).
Proof.
  intros Hdry. revert deleted. induction stale as [|r stale IH]; intros deleted.
  - rewrite forEach_nil. simpl. by rewrite Nat.add_0_r.
  - rewrite forEach_cons, deleteStep_dry by done.
    cbn [fst snd]. rewrite IH. simpl. do 2 f_equal. lia.
Qed.

(** The result of [deleteStaleResources] in a dry run, from the answer of
    its listing call. *)
Lemma dryRun_outcome desired networkID cfg s :
  DryRun cfg = true →
  deleteStaleResources desired networkID cfg s =
  (match (GetResources networkID s).1 with
   | Err _ => (0, 1)
   | Ok listing => (length (List.filter (is_stale desired) listing), 0)
   end, (GetResources networkID s).2).
Proof.
  intros Hdry. unfold deleteStaleResources, bind.
  destruct (GetResources networkID s) as [[listing|e] s1]; simpl; [| done].
  rewrite staleResources_spec.
  destruct (List.filter (is_stale desired) listing) as [|r stale] eqn:E; [done |].
  cbn [length Nat.eqb]. by rewrite deleteLoop_dry.
Qed.

(** [DeleteResource] makes one call and reports whether it succeeded. *)
Lemma DeleteResource_calls resourceID s :
  calls (DeleteResource resourceID s).2 =
  calls s ++ [(CResourceDelete resourceID,
               bool_decide ((DeleteResource resourceID s).1 = None))].
Proof.
  unfold DeleteResource, bind, perform, ret.
  destruct (Mutate_resourceDelete resourceID (world s)) as [[p|e] w]; simpl; [| done].
  by destruct (OK p).
Qed.

(** The deletion loop outside a dry run: one delete call per stale
    resource, in order, whatever the earlier ones answered; each counter
    grows by the calls that succeeded, respectively failed. *)
Lemma deleteStep_loop cfg (stale : list Resource.t) deleted errors s :
  DryRun cfg = false →
  ∃ l, calls (forEach (deleteStep cfg) (deleted, errors) stale s).2 = calls s ++ l ∧
       l.*1 = (fun r => CResourceDelete (Resource.ID r)) <$> stale ∧
       (forEach (deleteStep cfg) (deleted, errors) stale s).1
       = (deleted + succeeded l, errors + failed l).
Proof.
  intros Hdry. revert deleted errors s.
  induction stale as [|r stale IH]; intros deleted errors s.
  - exists []. rewrite forEach_nil. unfold succeeded, failed. simpl.
    by rewrite app_nil_r, !Nat.add_0_r.
  - rewrite forEach_cons, deleteStep_wet by done.
    pose proof (DeleteResource_calls (Resource.ID r) s) as Hc.
    destruct (DeleteResource (Resource.ID r) s) as [err s1]. simpl in Hc.
    destruct err as [e|]; cbn [fst snd].
    + destruct (IH deleted (S errors) s1) as (l & E & Hl & R).
      exists ((CResourceDelete (Resource.ID r), false) :: l).
      rewrite E, Hc, R, <- app_assoc. unfold succeeded, failed.
      cbn [fmap list_fmap List.filter snd fst negb length app].
      split; [done |]. split; [by f_equal |]. f_equal; lia.
    + destruct (IH (S deleted) errors s1) as (l & E & Hl & R).
      exists ((CResourceDelete (Resource.ID r), true) :: l).
      rewrite E, Hc, R, <- app_assoc. unfold succeeded, failed.
      cbn [fmap list_fmap List.filter snd fst negb length app].
      split; [done |]. split; [by f_equal |]. f_equal; lia.
Qed.

End Cleanup.

(** C4.  In a dry run [deleteStaleResources] makes its listing call and no
    other call, so no delete crosses the transport however many resources are
    stale; and when the listing succeeds the deleted count it reports is the
    number of listed resources whose name no desired mapping bears, with no
    error counted. *)
Theorem deleteStaleResources_dry_run {W : Type} `{!GraphQL W}
    (desired : list ResourceMapping) (networkID : string) (cfg : CleanupConfig)
    (s : Session W) :
  DryRun cfg = true →
  calls (deleteStaleResources desired networkID cfg s).2
    = calls s ++ [(CResources 100, is_Ok (GetResources networkID s).1)] ∧
  Forall (fun e => is_delete e.1 = false)
         (drop (length (calls s)) (calls (deleteStaleResources desired networkID cfg s).2)) ∧
  ∀ listing, (GetResources networkID s).1 = Ok listing →
    (deleteStaleResources desired networkID cfg s).1
    = (length (List.filter (is_stale desired) listing), 0).
Proof.
  intros Hdry. rewrite dryRun_outcome by done. cbn [fst snd].
  rewrite GetResources_calls. split; [done |]. split.
  - rewrite drop_app_length. by repeat constructor.
  - by intros listing ->.
Qed.

Lemma deleteStaleResources_dry_run_witness :
  DryRun dryRun = true ∧
  (deleteStaleResources [] "net1" dryRun (Inventory.start threeStale)).1 = (3, 0) ∧
  calls (deleteStaleResources [] "net1" dryRun (Inventory.start threeStale)).2
    = [(CResources 100, true)].
Proof.
  split; [reflexivity |].
  destruct (deleteStaleResources_dry_run [] "net1" dryRun (Inventory.start threeStale)
              eq_refl) as (Hcalls & _ & Hcount).
  split; [exact (Hcount _ eq_refl) | exact Hcalls].
Defined.

(** C5 (as stated, fails).  A dry run whose listing call fails reports one
    cleanup error. *)
Lemma dry_run_listing_failure :
  DryRun dryRun = true ∧
  (deleteStaleResources [] "net1" dryRun (Inventory.start cutOff)).1 = (0, 1).
Proof. split; reflexivity. Qed.

(** The error of a failed dry-run listing reaches the result of
    [SyncResources]: the upsert pass succeeds, the cleanup listing does not. *)
Example SyncResources_reports_listing_failure :
  (SyncResources [apiMapping] "" (Some dryRun) (Inventory.start expiring)).1
  = Some "sync completed with 1 errors (upsert: 0, delete: 1)".
Proof. vm_compute. reflexivity. Qed.

(** C5 (amended).  In a dry run the cleanup error count is zero when the
    listing call succeeds; when the listing call fails the pass reports no
    deletion and exactly one error.  No other error arises in a dry run. *)
Theorem dry_run_cleanup_errors {W : Type} `{!GraphQL W}
    (desired : list ResourceMapping) (networkID : string) (cfg : CleanupConfig)
    (s : Session W) :
  DryRun cfg = true →
  ((∃ listing, (GetResources networkID s).1 = Ok listing) →
     (deleteStaleResources desired networkID cfg s).1.2 = 0) ∧
  ((∃ e, (GetResources networkID s).1 = Err e) →
     (deleteStaleResources desired networkID cfg s).1 = (0, 1)) ∧
  ((deleteStaleResources desired networkID cfg s).1.2 ≤ 1)%nat.
Proof.
  intros Hdry. rewrite dryRun_outcome by done. cbn [fst snd].
  destruct (GetResources networkID s).1 as [listing|e]; simpl.
  - split; [done |]. split; [| lia]. by intros [e ?].
  - split; [by intros [listing ?] |]. split; [done | lia].
Qed.

Lemma dry_run_cleanup_errors_witness :
  DryRun dryRun = true ∧
  (deleteStaleResources [] "net1" dryRun (Inventory.start threeStale)).1.2 = 0 ∧
  (deleteStaleResources [] "net1" dryRun (Inventory.start cutOff)).1 = (0, 1).
Proof.
  split; [reflexivity |]. split.
  - apply (dry_run_cleanup_errors [] "net1" dryRun
             (Inventory.start threeStale) eq_refl).
    eexists. reflexivity.
  - apply (dry_run_cleanup_errors [] "net1" dryRun
             (Inventory.start cutOff) eq_refl).
    eexists. reflexivity.
Defined.

(** C6.  Outside a dry run, once the listing has succeeded, every stale
    resource gets its delete call, in listing order, whether or not earlier
    deletions failed; the deleted count is the number of delete calls that
    succeeded and the error count the number that failed, so the two add up
    to the number of stale resources. *)
Theorem deleteStaleResources_continues {W : Type} `{!GraphQL W}
    (desired : list ResourceMapping) (networkID : string) (cfg : CleanupConfig)
    (s : Session W) (listing : list Resource.t) :
  DryRun cfg = false →
  (GetResources networkID s).1 = Ok listing →
  ∃ l,
    calls (deleteStaleResources desired networkID cfg s).2
      = calls (GetResources networkID s).2 ++ l ∧
    l.*1 = (fun r => CResourceDelete (Resource.ID r))
             <$> List.filter (is_stale desired) listing ∧
    (deleteStaleResources desired networkID cfg s).1 = (succeeded l, failed l) ∧
    succeeded l + failed l = length (List.filter (is_stale desired) listing).
Proof.
  intros Hwet Hlist. unfold deleteStaleResources, bind.
  destruct (GetResources networkID s) as [r s1]. simpl in Hlist. subst r.
  cbn [snd]. rewrite staleResources_spec.
  destruct (List.filter (is_stale desired) listing) as [|r stale] eqn:E.
  - exists []. by rewrite app_nil_r.
  - cbn [length Nat.eqb].
    destruct (deleteStep_loop cfg (r :: stale) 0 0 s1 Hwet) as (l & Hc & Hl & R).
    exists l. rewrite Hc, R. repeat split; [done |].
    apply (f_equal length) in Hl. rewrite !length_fmap in Hl.
    change (S (length stale)) with (length (r :: stale)). rewrite <- Hl.
    clear. unfold succeeded, failed.
    induction l as [|[c [|]] l IH]; simpl; lia.
Qed.

(** With three stale resources of which the second cannot be deleted, all
    three deletions are attempted; two are counted deleted and one failed. *)
Lemma deleteStaleResources_continues_witness :
  DryRun wetRun = false ∧
  (GetResources "net1" (Inventory.start threeStale)).1
    = Ok (Inventory.resources threeStale) ∧
  (deleteStaleResources [] "net1" wetRun (Inventory.start threeStale)).1 = (2, 1) ∧
  calls (deleteStaleResources [] "net1" wetRun (Inventory.start threeStale)).2
    = [(CResources 100, true);
       (CResourceDelete "res1", true);
       (CResourceDelete "res2", false);
       (CResourceDelete "res3", true)] ∧
  ∃ l,
    calls (deleteStaleResources [] "net1" wetRun (Inventory.start threeStale)).2
      = calls (GetResources "net1" (Inventory.start threeStale)).2 ++ l ∧
    l.*1 = (fun r => CResourceDelete (Resource.ID r))
             <$> List.filter (is_stale []) (Inventory.resources threeStale) ∧
    (deleteStaleResources [] "net1" wetRun (Inventory.start threeStale)).1
      = (succeeded l, failed l) ∧
    succeeded l + failed l
      = length (List.filter (is_stale []) (Inventory.resources threeStale)).
Proof.
  split; [reflexivity |]. split; [reflexivity |].
  split; [vm_compute; reflexivity |]. split; [vm_compute; reflexivity |].
  exact (deleteStaleResources_continues [] "net1" wetRun (Inventory.start threeStale)
           (Inventory.resources threeStale) eq_refl eq_refl).
Defined.

Section Upsert.

Context {W : Type} `{!GraphQL W} `{!NetLib}.

Implicit Types (s : Session W) (mapping : ResourceMapping) (existing : Resource.t).

Lemma updateExistingResource_noop mapping existing s :
  up_to_date mapping existing →
  updateExistingResource mapping existing s = (None, s).
Proof.
  intros (Hn & Ha & Hal). unfold updateExistingResource.
  rewrite Hn, Ha, Hal, !String.eqb_refl. reflexivity.
Qed.

Lemma UpdateResource_calls (input : ResourceUpdateInput.t) s :
  calls (UpdateResource input s).2 =
  calls s ++ [(CResourceUpdate (ResourceUpdateInput.ID input)
                 (default "" (ResourceUpdateInput.Name input))
                 (default "" (ResourceUpdateInput.Address input))
                 (default "" (ResourceUpdateInput.Alias input)),
               is_Ok (UpdateResource input s).1)].
Proof.
  unfold UpdateResource, perform.
  by destruct (Mutate_resourceUpdate _ _ _ _ (world s)) as [[p|e] w].
Qed.

(** Whatever field differs, the one update sent carries the mapping's
    name, address and alias. *)
Lemma updateExistingResource_update mapping existing s :
  ¬ up_to_date mapping existing →
  ∃ ok,
    calls (updateExistingResource mapping existing s).2 =
    calls s ++ [(CResourceUpdate (Resource.ID existing) (Name mapping)
                   (Address mapping) (default "" (Alias mapping)), ok)] ∧
    (ok = true ↔ (updateExistingResource mapping existing s).1 = None).
Proof.
  intros Hdiff. unfold updateExistingResource.
  destruct (String.eqb_spec (Resource.Name existing) (Name mapping)) as [En|En];
  destruct (String.eqb_spec (Resource.AddressValue existing) (Address mapping))
    as [Ea|Ea];
  destruct (String.eqb_spec (default "" (Resource.Alias existing))
                            (default "" (Alias mapping))) as [El|El];
  try (destruct Hdiff; by repeat split);
  cbn [negb]; unfold bind;
  match goal with
  | |- context [UpdateResource ?i s] =>
      pose proof (UpdateResource_calls i s) as Hc;
      destruct (UpdateResource i s) as [[res|e] s1]
  end;
  cbn [ResourceUpdateInput.ID ResourceUpdateInput.Name ResourceUpdateInput.Address
       ResourceUpdateInput.Alias default fst snd is_Ok ret] in *;
  rewrite ?En, ?Ea, ?El in Hc;
  eexists; (split; [exact Hc |]); by split.
Qed.

End Upsert.

Section Converged.

Context {W : Type} `{!GraphQL W} `{!NetLib}.
Variables (I : W → Prop) (nets : list RemoteNetwork.t) (page : list Resource.t).
Hypothesis Hsteady : steady I nets page.

Implicit Types (s : Session W) (mapping : ResourceMapping).

Lemma GetRemoteNetworks_steady s :
  I (world s) →
  ∃ s1, GetRemoteNetworks s = (Ok nets, s1) ∧ I (world s1) ∧
        calls s1 = calls s ++ [(CRemoteNetworks 100, true)].
Proof.
  intros Hw. destruct Hsteady as [Hn _]. destruct (Hn _ Hw) as [E HI].
  rewrite GetRemoteNetworks_eq.
  destruct (Query_remoteNetworks 100 (world s)) as [answer w]. simpl in E, HI.
  subst answer. eexists. split; [reflexivity |]. by split.
Qed.

Lemma GetResources_steady networkID s :
  I (world s) →
  ∃ s1, GetResources networkID s = (Ok (List.filter (in_network networkID) page), s1) ∧
        I (world s1) ∧ calls s1 = calls s ++ [(CResources 100, true)].
Proof.
  intros Hw. destruct Hsteady as [_ Hr]. destruct (Hr _ Hw) as [E HI].
  rewrite GetResources_eq.
  destruct (Query_resources 100 (world s)) as [answer w]. simpl in E, HI.
  subst answer. eexists. split; [reflexivity |]. by split.
Qed.

(** A settled mapping costs one listing call and nothing else. *)
Lemma syncSingleResource_settled networkID mapping s :
  I (world s) → settled networkID page mapping →
  ∃ s1, syncSingleResource mapping networkID s = (None, s1) ∧ I (world s1) ∧
        calls s1 = calls s ++ [(CResources 100, true)].
Proof.
  intros Hw (Hvalid & existing & Hfind & Hup).
  destruct (GetResources_steady networkID s Hw) as (s1 & E & HI & Hc).
  exists s1. split; [| done].
  unfold syncSingleResource. rewrite Hvalid.
  unfold findExisting in Hfind.
  destruct (Alias mapping) as [alias|] eqn:Ealias.
  - unfold bind, GetResourceByAlias, bind. rewrite E. unfold ret. rewrite Hfind.
    by apply updateExistingResource_noop.
  - unfold bind. rewrite E. unfold ret. rewrite Hfind.
    by apply updateExistingResource_noop.
Qed.

Lemma upsertStep_eq networkID mapping success errors s :
  upsertStep networkID (success, errors) mapping s =
  (match (syncSingleResource mapping networkID s).1 with
   | Some _ => (success, S errors)
   | None => (S success, errors)
   end, (syncSingleResource mapping networkID s).2).
Proof.
  unfold upsertStep, bind.
  by destruct (syncSingleResource mapping networkID s) as [[e|] s1].
Qed.

Lemma upsertResources_settled networkID (mappings : list ResourceMapping)
    success errors s :
  I (world s) → Forall (settled networkID page) mappings →
  ∃ s1 l, forEach (upsertStep networkID) (success, errors) mappings s
          = ((success + length mappings, errors), s1) ∧
          I (world s1) ∧ calls s1 = calls s ++ l ∧
          Forall (fun e => is_query e.1 = true) l.
Proof.
  intros Hw Hall. revert success s Hw.
  induction Hall as [|mapping mappings Hm Hall IH]; intros success s Hw.
  - exists s, []. rewrite forEach_nil, app_nil_r, Nat.add_0_r. by repeat split.
  - destruct (syncSingleResource_settled networkID mapping s Hw Hm)
      as (s1 & E & HI & Hc).
    rewrite forEach_cons, upsertStep_eq, E. cbn [fst snd].
    destruct (IH (S success) s1 HI) as (s2 & l & E2 & HI2 & Hc2 & Hq).
    exists s2, ((CResources 100, true) :: l). rewrite E2, Hc2, Hc, <- app_assoc.
    cbn [length]. repeat split; [do 2 f_equal; lia | done | by constructor].
Qed.

Lemma GetOrCreateRemoteNetwork_found name (network : RemoteNetwork.t) s :
  I (world s) →
  List.find (fun n => String.eqb (RemoteNetwork.Name n) name) nets = Some network →
  ∃ s1, GetOrCreateRemoteNetwork name s = (Ok network, s1) ∧ I (world s1) ∧
        calls s1 = calls s ++ [(CRemoteNetworks 100, true)].
Proof.
  intros Hw Hfind. destruct (GetRemoteNetworks_steady s Hw) as (s1 & E & HI & Hc).
  exists s1. split; [| done].
  unfold GetOrCreateRemoteNetwork, bind, GetRemoteNetworkByName, bind.
  rewrite E. unfold ret. by rewrite Hfind.
Qed.

End Converged.

(** *** Which calls each operation can make *)

Ltac emits_step :=
  first
    [ apply emits_ret
    | apply emits_perform; try done
    | apply emits_forEach; intros ? ?
    | apply emits_bind; [| intros ?]
    | match goal with
      | |- emits _ (match ?x with _ => _ end) => destruct x
      end ].

Ltac emits_auto := repeat emits_step.

Section Footprint.

Context {W : Type} `{!GraphQL W} `{!NetLib}.

Lemma emits_GetResources (P : Call → Prop) networkID :
  (∀ n, P (CResources n)) → emits (W := W) P (GetResources networkID).
Proof. intros HP. unfold GetResources. by apply emits_perform. Qed.

Lemma emits_DeleteResource (P : Call → Prop) resourceID :
  (∀ id, P (CResourceDelete id)) → emits (W := W) P (DeleteResource resourceID).
Proof. intros HP. unfold DeleteResource. emits_auto. Qed.

(** The cleanup pass lists and deletes; it never creates or updates. *)
Lemma emits_deleteStaleResources (P : Call → Prop) desired networkID cfg :
  (∀ n, P (CResources n)) → (∀ id, P (CResourceDelete id)) →
  emits (W := W) P (deleteStaleResources desired networkID cfg).
Proof.
  intros Hq Hd. unfold deleteStaleResources.
  apply emits_bind; [by apply emits_GetResources |].
  intros [listing|e]; [| apply emits_ret].
  destruct (length _ =? 0)%nat; [apply emits_ret |].
  apply emits_forEach. intros [deleted errors] r. unfold deleteStep.
  destruct (DryRun cfg); [apply emits_ret |].
  apply emits_bind; [by apply emits_DeleteResource |].
  intros [e|]; apply emits_ret.
Qed.

Lemma emits_syncSingleResource mapping networkID :
  emits (W := W) (fun _ => True) (syncSingleResource mapping networkID).
Proof.
  unfold syncSingleResource, GetResourceByAlias, updateExistingResource,
    createNewResource, CreateResource, UpdateResource, GetResources.
  destruct (validateMapping mapping); [apply emits_ret |].
  apply emits_bind.
  - destruct (Alias mapping); emits_auto.
  - intros [[existing|]|e]; [| emits_auto | emits_auto].
    repeat match goal with
           | |- context [if ?b then _ else _] => destruct b
           end; emits_auto.
Qed.

Lemma emits_upsertResources mappings networkID :
  emits (W := W) (fun _ => True) (upsertResources mappings networkID).
Proof.
  unfold upsertResources. apply emits_forEach. intros [success errors] mapping.
  unfold upsertStep. apply emits_bind; [apply emits_syncSingleResource |].
  intros [e|]; apply emits_ret.
Qed.

End Footprint.

Section Idempotence.

Context {W : Type} `{!GraphQL W} `{!NetLib}.

Lemma is_query_not_upsert (c : Call) : is_query c = true → is_upsert c = false.
Proof. by destruct c. Qed.

(** [SyncResources] in terms of the results of its three phases. *)
Lemma SyncResources_eq (mappings : list ResourceMapping) (remoteNetworkName : string)
    (cleanupConfig : option CleanupConfig) (s : Session W) :
  SyncResources mappings remoteNetworkName cleanupConfig s =
  if (length mappings =? 0)%nat then (None, s)
  else
    let '(network, s1) :=
      GetOrCreateRemoteNetwork (effectiveName remoteNetworkName) s in
    match network with
    | Err e => (Some ("failed to get or create remote network: " +:+ e), s1)
    | Ok network =>
        let '((_, errorCount), s2) :=
          upsertResources mappings (RemoteNetwork.ID network) s1 in
        let '((_, deleteErrors), s3) :=
          match cleanupConfig with
          | Some cfg =>
              if Enabled cfg
              then deleteStaleResources mappings (RemoteNetwork.ID network) cfg s2
              else ((0, 0), s2)
          | None => ((0, 0), s2)
          end in
        (if (0 <? errorCount + deleteErrors)%nat
         then Some ("sync completed with " +:+ pretty (errorCount + deleteErrors)
                    +:+ " errors (upsert: " +:+ pretty errorCount
                    +:+ ", delete: " +:+ pretty deleteErrors +:+ ")")
         else None, s3)
    end.
Proof.
  unfold SyncResources, effectiveName.
  destruct (length mappings =? 0)%nat; [done |].
  unfold bind.
  destruct (GetOrCreateRemoteNetwork _ s) as [[network|e] s1]; [| done].
  destruct (upsertResources mappings (RemoteNetwork.ID network) s1)
    as [[successCount errorCount] s2].
  destruct cleanupConfig as [cfg|]; [destruct (Enabled cfg) |].
  - destruct (deleteStaleResources _ _ _ s2) as [[deleteCount deleteErrors] s3].
    by destruct (0 <? errorCount + deleteErrors)%nat.
  - unfold ret. by destruct (0 <? errorCount + 0)%nat.
  - unfold ret. by destruct (0 <? errorCount + 0)%nat.
Qed.

(** A sync against an inventory that already holds every mapping makes no
    create and no update call; without cleanup it only lists, and succeeds. *)
Lemma SyncResources_settled (I : W → Prop) nets page
    (mappings : list ResourceMapping) (remoteNetworkName : string)
    (cleanupConfig : option CleanupConfig) (network : RemoteNetwork.t)
    (s : Session W) :
  steady I nets page → I (world s) →
  List.find (fun n => String.eqb (RemoteNetwork.Name n) (effectiveName remoteNetworkName))
            nets = Some network →
  Forall (settled (RemoteNetwork.ID network) page) mappings →
  ∃ l, calls (SyncResources mappings remoteNetworkName cleanupConfig s).2 = calls s ++ l ∧
       Forall (fun e => is_upsert e.1 = false) l ∧
       (cleanupConfig = None →
        (SyncResources mappings remoteNetworkName cleanupConfig s).1 = None ∧
        Forall (fun e => is_query e.1 = true) l).
Proof.
  intros Hsteady Hw Hfind Hall. rewrite SyncResources_eq.
  destruct (length mappings =? 0)%nat.
  { exists []. rewrite app_nil_r. by repeat split. }
  destruct (GetOrCreateRemoteNetwork_found I nets page Hsteady _ network s Hw Hfind)
    as (s1 & E1 & HI1 & Hc1).
  rewrite E1.
  destruct (upsertResources_settled I nets page Hsteady (RemoteNetwork.ID network)
              mappings 0 0 s1 HI1 Hall) as (s2 & l2 & E2 & HI2 & Hc2 & Hq2).
  unfold upsertResources. rewrite E2.
  assert (Forall (fun e : Call * bool => is_upsert e.1 = false) l2) as Hu2.
  { eapply Forall_impl; [exact Hq2 |]. intros e. apply is_query_not_upsert. }
  destruct cleanupConfig as [cfg|]; [destruct (Enabled cfg) |].
  - destruct (emits_deleteStaleResources (fun c => is_upsert c = false)
                mappings (RemoteNetwork.ID network) cfg
                (fun _ => eq_refl) (fun _ => eq_refl) s2) as (l3 & Hc3 & Hu3).
    destruct (deleteStaleResources _ _ _ s2) as [[deleteCount deleteErrors] s3].
    cbn [snd] in *.
    exists ((CRemoteNetworks 100, true) :: l2 ++ l3).
    rewrite Hc3, Hc2, Hc1, <- !app_assoc. split; [done |]. split; [| done].
    constructor; [done |]. by apply Forall_app.
  - exists ((CRemoteNetworks 100, true) :: l2). cbn [fst snd].
    rewrite Hc2, Hc1, <- app_assoc. split; [done |]. split; [| done].
    by constructor.
  - exists ((CRemoteNetworks 100, true) :: l2). cbn [fst snd].
    rewrite Hc2, Hc1, <- app_assoc. split; [done |]. split; [by constructor |].
    intros _. split; [done |]. by constructor.
Qed.

End Idempotence.

(** C2 (as stated, fails).  The existing alias is the empty string and the
    desired alias is absent: the alias fields differ, yet no update is sent. *)
Lemma updateExistingResource_blank_alias_skipped :
  Resource.Name blankAliasResource = Name wildcardMapping ∧
  Resource.AddressValue blankAliasResource = Address wildcardMapping ∧
  Resource.Alias blankAliasResource ≠ Alias wildcardMapping ∧
  updateExistingResource wildcardMapping blankAliasResource (Inventory.start inSync)
  = (None, Inventory.start inSync).
Proof. repeat split; done. Qed.

(** C2 (amended).  The three fields are compared with an absent alias read as
    the empty alias.  When name, address and alias so read are equal,
    [updateExistingResource] makes no call and succeeds; otherwise it makes
    exactly one update call, carrying the mapping's name, address and alias,
    and succeeds exactly when that call does.  Hence a sync of valid mappings
    that the remote inventory already holds unchanged, against listings that
    stay the same, makes no create and no update call; without cleanup it
    makes listing calls only and reports success. *)
Theorem updateExistingResource_minimal {W : Type} `{!GraphQL W} `{!NetLib}
    (mapping : ResourceMapping) (existing : Resource.t) (s : Session W) :
  (up_to_date mapping existing →
     updateExistingResource mapping existing s = (None, s)) ∧
  (¬ up_to_date mapping existing →
     ∃ ok,
       calls (updateExistingResource mapping existing s).2 =
       calls s ++ [(CResourceUpdate (Resource.ID existing) (Name mapping)
                      (Address mapping) (default "" (Alias mapping)), ok)] ∧
       (ok = true ↔ (updateExistingResource mapping existing s).1 = None)) ∧
  (∀ (I : W → Prop) nets page mappings remoteNetworkName cleanupConfig network,
     steady I nets page → I (world s) →
     List.find (fun n => String.eqb (RemoteNetwork.Name n)
                                    (effectiveName remoteNetworkName)) nets
       = Some network →
     Forall (settled (RemoteNetwork.ID network) page) mappings →
     ∃ l,
       calls (SyncResources mappings remoteNetworkName cleanupConfig s).2
         = calls s ++ l ∧
       Forall (fun e => is_upsert e.1 = false) l ∧
       (cleanupConfig = None →
          (SyncResources mappings remoteNetworkName cleanupConfig s).1 = None ∧
          Forall (fun e => is_query e.1 = true) l)).
Proof.
  split; [apply updateExistingResource_noop |].
  split; [apply updateExistingResource_update |].
  intros I nets page mappings remoteNetworkName cleanupConfig network.
  apply SyncResources_settled.
Qed.

Lemma inSync_steady :
  steady (fun w => w = inSync) (Inventory.networks inSync) (Inventory.resources inSync).
Proof. split; intros w ->; by split. Qed.

Lemma apiMapping_settled :
  settled "net1" (Inventory.resources inSync) apiMapping.
Proof.
  split; [reflexivity |]. exists apiResource. split; [reflexivity |].
  by repeat split.
Qed.

Lemma updateExistingResource_minimal_witness :
  updateExistingResource apiMapping apiResource (Inventory.start inSync)
    = (None, Inventory.start inSync) ∧
  SyncResources [apiMapping] "" None (Inventory.start inSync)
    = (None, {| world := inSync;
                calls := [(CRemoteNetworks 100, true); (CResources 100, true)] |}) ∧
  ∃ l,
    calls (SyncResources [apiMapping] "" None (Inventory.start inSync)).2 = [] ++ l ∧
    Forall (fun e => is_upsert e.1 = false) l ∧
    (@None CleanupConfig = None →
       (SyncResources [apiMapping] "" None (Inventory.start inSync)).1 = None ∧
       Forall (fun e => is_query e.1 = true) l).
Proof.
  destruct (updateExistingResource_minimal apiMapping apiResource (Inventory.start inSync))
    as (Hnoop & _ & Hsync).
  split; [apply Hnoop; by repeat split |].
  split; [vm_compute; reflexivity |].
  apply (Hsync (fun w => w = inSync) (Inventory.networks inSync)
           (Inventory.resources inSync) [apiMapping] "" None
           {| RemoteNetwork.ID := "net1"; RemoteNetwork.Name := "Caddy-Managed" |}).
  - apply inSync_steady.
  - reflexivity.
  - reflexivity.
  - constructor; [apply apiMapping_settled | constructor].
Defined.

(** *** Listing *)

(** C3 (as stated, fails).  With 101 networks, and 101 resources in the
    target network, each listing returns 100 entries: the last network and
    the last resource are missing, and the last network is not found by
    name. *)
Lemma listing_truncated :
  numberedNetwork 100 ∈ Inventory.networks crowded ∧
  numberedResource 100 ∈ Inventory.resources crowded ∧
  (∃ l, (GetRemoteNetworks (Inventory.start crowded)).1 = Ok l ∧
        length l = 100 ∧ numberedNetwork 100 ∉ l) ∧
  (∃ l, (GetResources "net100" (Inventory.start crowded)).1 = Ok l ∧
        length l = 100 ∧ numberedResource 100 ∉ l) ∧
  (GetRemoteNetworkByName "network-100" (Inventory.start crowded)).1 = Ok None.
Proof.
  assert (∀ i : nat, numberedNetwork 100 ∈ numberedNetwork <$> seq 0 i → (100 < i)%nat)
    as Hnet.
  { intros i (j & E & Hj)%list_elem_of_fmap. apply elem_of_seq in Hj.
    assert (j = 100) as -> by (by injection E as ->%(inj _)%(inj _)). lia. }
  assert (∀ i : nat, numberedResource 100 ∈ numberedResource <$> seq 0 i → (100 < i)%nat)
    as Hres.
  { intros i (j & E & Hj)%list_elem_of_fmap. apply elem_of_seq in Hj.
    assert (j = 100) as -> by (by injection E as ->%(inj _)%(inj _)). lia. }
  split; [| split; [| split; [| split]]].
  - apply list_elem_of_fmap. exists 100. split; [done |]. apply elem_of_seq. lia.
  - apply list_elem_of_fmap. exists 100. split; [done |]. apply elem_of_seq. lia.
  - exists (numberedNetwork <$> seq 0 100). split; [vm_compute; reflexivity |].
    split; [by rewrite length_fmap, length_seq |]. intros Hin%Hnet. lia.
  - exists (numberedResource <$> seq 0 100). split; [vm_compute; reflexivity |].
    split; [by rewrite length_fmap, length_seq |]. intros Hin%Hres. lia.
  - vm_compute. reflexivity.
Qed.

Lemma Inventory_networks_page (w : Inventory.t) (first : nat) :
  Inventory.reachable_for w ≠ Some 0 →
  (Query_remoteNetworks first w).1 = Ok (take first (Inventory.networks w)).
Proof.
  intros Hreach. cbn [Query_remoteNetworks Inventory.graphql]. unfold Inventory.answer.
  by destruct (Inventory.reachable_for w) as [[|n]|].
Qed.

Lemma Inventory_resources_page (w : Inventory.t) (first : nat) :
  Inventory.reachable_for w ≠ Some 0 →
  (Query_resources first w).1 = Ok (take first (Inventory.resources w)).
Proof.
  intros Hreach. cbn [Query_resources Inventory.graphql]. unfold Inventory.answer.
  by destruct (Inventory.reachable_for w) as [[|n]|].
Qed.

(** C3 (amended).  Each listing operation makes one query, for the first 100
    entries, and returns the page that query answers with: [GetRemoteNetworks]
    the page as it is, [GetResources] its entries that lie in the target
    network (all of them for an empty network ID).  Against a reachable
    inventory these are the first 100 networks, and the target network's
    resources among the first 100 resources of all networks.  So
    [GetRemoteNetworks] returns every network exactly when the inventory
    holds at most 100 networks, and [GetResources] returns every resource of
    the target network exactly when none of them lies past the first 100
    resources of all networks, which is the case whenever the inventory holds
    at most 100 resources. *)
Theorem listing_is_first_page {W : Type} `{!GraphQL W}
    (s : Session W) (w : Inventory.t) (remoteNetworkID : string) :
  (calls (GetRemoteNetworks s).2
     = calls s ++ [(CRemoteNetworks 100, is_Ok (GetRemoteNetworks s).1)] ∧
   ∀ page, (Query_remoteNetworks 100 (world s)).1 = Ok page →
           (GetRemoteNetworks s).1 = Ok page) ∧
  (calls (GetResources remoteNetworkID s).2
     = calls s ++ [(CResources 100, is_Ok (GetResources remoteNetworkID s).1)] ∧
   ∀ page, (Query_resources 100 (world s)).1 = Ok page →
           (GetResources remoteNetworkID s).1
           = Ok (List.filter (in_network remoteNetworkID) page)) ∧
  (Inventory.reachable_for w ≠ Some 0 →
     (GetRemoteNetworks (Inventory.start w)).1 = Ok (take 100 (Inventory.networks w)) ∧
     (GetResources remoteNetworkID (Inventory.start w)).1
       = Ok (List.filter (in_network remoteNetworkID) (take 100 (Inventory.resources w))) ∧
     ((length (Inventory.networks w) ≤ 100)%nat →
        (GetRemoteNetworks (Inventory.start w)).1 = Ok (Inventory.networks w)) ∧
     ((length (Inventory.resources w) ≤ 100)%nat →
        (GetResources remoteNetworkID (Inventory.start w)).1
          = Ok (List.filter (in_network remoteNetworkID) (Inventory.resources w))) ∧
     ((GetRemoteNetworks (Inventory.start w)).1 = Ok (Inventory.networks w)
        ↔ (length (Inventory.networks w) ≤ 100)%nat) ∧
     ((GetResources remoteNetworkID (Inventory.start w)).1
        = Ok (List.filter (in_network remoteNetworkID) (Inventory.resources w))
        ↔ List.filter (in_network remoteNetworkID) (drop 100 (Inventory.resources w))
          = [])).
Proof.
  split; [| split].
  - rewrite GetRemoteNetworks_eq.
    destruct (Query_remoteNetworks 100 (world s)) as [[page|e] w1]; simpl;
      (split; [done |]); by intros page' [= ->].
  - split; [apply GetResources_calls |]. rewrite GetResources_eq.
    destruct (Query_resources 100 (world s)) as [[page|e] w1]; simpl;
      by intros page' [= ->].
  - intros Hreach.
    assert ((GetRemoteNetworks (Inventory.start w)).1
            = Ok (take 100 (Inventory.networks w))) as Hn.
    { rewrite GetRemoteNetworks_eq. cbn [world Inventory.start].
      pose proof (Inventory_networks_page w 100 Hreach) as Hp.
      destruct (Query_remoteNetworks 100 w) as [answer w1]. simpl in Hp.
      by subst answer. }
    assert ((GetResources remoteNetworkID (Inventory.start w)).1
            = Ok (List.filter (in_network remoteNetworkID)
                              (take 100 (Inventory.resources w)))) as Hr.
    { rewrite GetResources_eq. cbn [world Inventory.start].
      pose proof (Inventory_resources_page w 100 Hreach) as Hp.
      destruct (Query_resources 100 w) as [answer w1]. simpl in Hp.
      by subst answer. }
    split; [exact Hn |]. split; [exact Hr |].
    split; [| split; [| split]].
    + intros Hlen. by rewrite Hn, take_ge.
    + intros Hlen. by rewrite Hr, take_ge.
    + rewrite Hn. split.
      * intros [= E]. apply (f_equal length) in E. rewrite length_take in E. lia.
      * intros Hlen. by rewrite take_ge.
    + rewrite Hr.
      rewrite <- (take_drop 100 (Inventory.resources w)) at 2.
      rewrite List.filter_app. split.
      * intros [= E]. symmetry in E.
        rewrite <- (app_nil_r (List.filter _ (take 100 _))) in E at 2.
        by apply app_inv_head in E.
      * intros ->. by rewrite app_nil_r.
Qed.

Lemma listing_is_first_page_witness :
  (GetRemoteNetworks (Inventory.start crowded)).1
    = Ok (take 100 (Inventory.networks crowded)) ∧
  (GetResources "net1" (Inventory.start threeStale)).1
    = Ok (Inventory.resources threeStale).
Proof.
  split.
  - destruct (listing_is_first_page (Inventory.start crowded) crowded "")
      as (_ & _ & Hinv).
    destruct Hinv as (Hn & _); [done | exact Hn].
  - destruct (listing_is_first_page (Inventory.start threeStale) threeStale "net1")
      as (_ & _ & Hinv).
    destruct Hinv as (_ & _ & _ & Hall & _); [done |].
    apply Hall. simpl. lia.
Defined.

(** More than 100 resources do not by themselves truncate the listing of a
    network: with 101 resources of which the last lies in [net100], the
    listing of [net1] is complete and that of [net100] is not. *)
Example listing_complete_past_first_page :
  length (Inventory.resources twoNetworks) = 101 ∧
  (GetResources "net1" (Inventory.start twoNetworks)).1
    = Ok (List.filter (in_network "net1") (Inventory.resources twoNetworks)) ∧
  (GetResources "net100" (Inventory.start twoNetworks)).1
    ≠ Ok (List.filter (in_network "net100") (Inventory.resources twoNetworks)).
Proof.
  split; [vm_compute; reflexivity |].
  split; [vm_compute; reflexivity |].
  intros E. vm_compute in E. injection E as E.
  apply (f_equal length) in E. vm_compute in E. discriminate E.
Qed.

(** *** The default network name *)

Section DefaultName.

Context {W : Type} `{!GraphQL W} `{!NetLib}.

Lemma GetRemoteNetworkByName_absent name (networks : list RemoteNetwork.t)
    (s : Session W) :
  (GetRemoteNetworks s).1 = Ok networks →
  Forall (fun n => RemoteNetwork.Name n ≠ name) networks →
  GetRemoteNetworkByName name s = (Ok None, (GetRemoteNetworks s).2) ∧
  calls (GetRemoteNetworks s).2 = calls s ++ [(CRemoteNetworks 100, true)].
Proof.
  intros Hlist Hnone. unfold GetRemoteNetworkByName, bind. split.
  - destruct (GetRemoteNetworks s) as [r s1]. simpl in Hlist. subst r.
    unfold ret. cbn [snd]. do 2 f_equal.
    induction Hnone as [|n networks Hn Hnone IH]; [done |]. simpl.
    by apply String.eqb_neq in Hn as ->.
  - rewrite GetRemoteNetworks_eq in *.
    destruct (Query_remoteNetworks 100 (world s)) as [[page|e] w1]; by simpl in *.
Qed.

Lemma CreateRemoteNetwork_calls name (s : Session W) :
  calls (CreateRemoteNetwork name s).2
  = calls s ++ [(CRemoteNetworkCreate name, is_Ok (CreateRemoteNetwork name s).1)].
Proof.
  unfold CreateRemoteNetwork, perform.
  by destruct (Mutate_remoteNetworkCreate name (world s)) as [[p|e] w].
Qed.

End DefaultName.

(** C10.  With an empty network name both [SyncResources] and
    [GetSyncSummary] behave exactly as with the name ["Caddy-Managed"].  In
    particular, for a non-empty mapping list and a listing that holds no
    network of that name (whether or not it holds one with an empty name),
    the sync goes on to create the network ["Caddy-Managed"], and the summary
    announces the creation of ["Caddy-Managed"]. *)
Theorem empty_network_name_defaults {W : Type} `{!GraphQL W} `{!NetLib}
    (mappings : list ResourceMapping) (cleanupConfig : option CleanupConfig)
    (s : Session W) :
  SyncResources mappings "" cleanupConfig s
    = SyncResources mappings "Caddy-Managed" cleanupConfig s ∧
  GetSyncSummary mappings "" s = GetSyncSummary mappings "Caddy-Managed" s ∧
  (mappings ≠ [] →
   ∀ networks, (GetRemoteNetworks s).1 = Ok networks →
     Forall (fun n => RemoteNetwork.Name n ≠ "Caddy-Managed") networks →
     (∃ ok l, calls (SyncResources mappings "" cleanupConfig s).2
              = calls s ++ (CRemoteNetworks 100, true)
                        :: (CRemoteNetworkCreate "Caddy-Managed", ok) :: l) ∧
     (∃ summary, (GetSyncSummary mappings "" s).1 = Ok summary ∧
                 SyncSummary.RemoteNetworkAction summary = "create" ∧
                 SyncSummary.RemoteNetworkName summary = "Caddy-Managed")).
Proof.
  split; [reflexivity |]. split; [reflexivity |].
  intros Hne networks Hlist Hnone.
  destruct (GetRemoteNetworkByName_absent "Caddy-Managed" networks s Hlist Hnone)
    as [Hby Hc1].
  assert ((length mappings =? 0)%nat = false) as Hlen
    by (destruct mappings; [done | reflexivity]).
  split.
  - rewrite SyncResources_eq, Hlen. change (effectiveName "") with "Caddy-Managed".
    unfold GetOrCreateRemoteNetwork, bind. rewrite Hby.
    pose proof (CreateRemoteNetwork_calls "Caddy-Managed" (GetRemoteNetworks s).2) as Hc2.
    destruct (CreateRemoteNetwork "Caddy-Managed" (GetRemoteNetworks s).2)
      as [[network|e] s2]; cbn [fst snd is_Ok] in Hc2.
    + destruct (emits_upsertResources mappings (RemoteNetwork.ID network) s2)
        as (l3 & Hc3 & _).
      destruct (upsertResources mappings (RemoteNetwork.ID network) s2)
        as [[successCount errorCount] s3]. cbn [snd] in Hc3.
      assert (∃ l4, ∀ d s4,
                match cleanupConfig with
                | Some cfg =>
                    if Enabled cfg
                    then deleteStaleResources mappings (RemoteNetwork.ID network) cfg s3
                    else ((0, 0), s3)
                | None => ((0, 0), s3)
                end = (d, s4) → calls s4 = calls s3 ++ l4) as (l4 & Hc4).
      { destruct cleanupConfig as [cfg|]; [destruct (Enabled cfg) |].
        - destruct (emits_deleteStaleResources (fun _ => True) mappings
                      (RemoteNetwork.ID network) cfg (fun _ => Logic.I) (fun _ => Logic.I) s3)
            as (l4 & Hc4 & _).
          exists l4. intros d s4 E. by rewrite E in Hc4.
        - exists []. intros d s4 [= <- <-]. by rewrite app_nil_r.
        - exists []. intros d s4 [= <- <-]. by rewrite app_nil_r. }
      destruct (match cleanupConfig with
                | Some cfg => _
                | None => _
                end) as [[deleteCount deleteErrors] s4] eqn:E4.
      exists true, (l3 ++ l4). cbn [snd].
      rewrite (Hc4 _ _ eq_refl), Hc3, Hc2, Hc1, <- !app_assoc. done.
    + exists false, []. cbn [snd]. by rewrite Hc2, Hc1, <- app_assoc.
  - unfold GetSyncSummary. rewrite Hlen.
    change (if String.eqb "" "" then DefaultRemoteNetworkName else "")
      with "Caddy-Managed".
    unfold bind at 1. rewrite Hby. unfold bind.
    match goal with
    | |- context [forEach ?f ?a ?l ?st] => destruct (forEach f a l st) as [[toCreate toUpdate] s2]
    end.
    eexists. split; [reflexivity |]. by split.
Qed.

Lemma empty_network_name_defaults_witness :
  [apiMapping] ≠ [] ∧
  (GetRemoteNetworks (Inventory.start namelessOnly)).1
    = Ok (Inventory.networks namelessOnly) ∧
  calls (SyncResources [apiMapping] "" None (Inventory.start namelessOnly)).2
    = [ (CRemoteNetworks 100, true);
        (CRemoteNetworkCreate "Caddy-Managed", true);
        (CResources 100, true);
        (CResourceCreate
           {| ResourceCreateInput.Name := "api.example.com";
              ResourceCreateInput.Address := "10.0.0.1";
              ResourceCreateInput.RemoteNetworkID := "net1";
              ResourceCreateInput.Alias := "api.example.com" |}, true) ] ∧
  ∃ summary,
    (GetSyncSummary [apiMapping] "" (Inventory.start namelessOnly)).1 = Ok summary ∧
    SyncSummary.RemoteNetworkAction summary = "create" ∧
    SyncSummary.RemoteNetworkName summary = "Caddy-Managed".
Proof.
  split; [done |]. split; [reflexivity |]. split; [vm_compute; reflexivity |].
  destruct (empty_network_name_defaults [apiMapping] None (Inventory.start namelessOnly))
    as (_ & _ & H).
  apply (H ltac:(done) (Inventory.networks namelessOnly) eq_refl).
  by repeat constructor.
Defined.

(** * Further properties of the route discoverer *)

(** ** Path normalization *)

Lemma app_last_char (q q' : string) (c c' : ascii) :
  q +:+ String c "" = q' +:+ String c' "" → c = c'.
Proof.
  revert q'. induction q as [|a q IH]; intros [|a' q'] E;
    rewrite ?app_nil, ?app_cons in E.
  - by injection E.
  - injection E as _ E. destruct q'; rewrite ?app_nil, ?app_cons in E; done.
  - injection E as _ E. destruct q; rewrite ?app_nil, ?app_cons in E; done.
  - injection E as _ E. by apply IH in E.
Qed.

Lemma normalizePath_normalized (path : string) : normalized (normalizePath path).
Proof.
  unfold normalizePath, normalized.
  set (stripped := strings.TrimSuffix path "*").
  destruct (String.eqb_spec stripped "") as [->|Hne]; [by left |].
  destruct (String.eqb_spec stripped "/") as [->|Hns]; [by left |].
  cbn [negb andb].
  destruct (strings.HasSuffix stripped "/") eqn:Hs; cbn [negb].
  - apply String.eqb_neq in Hns as Hns'. rewrite Hns'. right. split; [done |].
    by apply HasSuffix_spec.
  - destruct (String.eqb_spec (stripped +:+ "/") "/") as [E|Hn]; [by left |].
    right. split; [done |]. by exists stripped.
Qed.

Lemma normalizePath_fixes_normalized (path : string) :
  normalized path → normalizePath path = path.
Proof.
  intros [-> | [Hns [q ->]]]; [reflexivity |].
  unfold normalizePath. rewrite TrimSuffix_none.
  - assert (strings.HasSuffix (q +:+ "/") "/" = true) as ->
      by (apply HasSuffix_spec; eauto).
    rewrite andb_false_r. by apply String.eqb_neq in Hns as ->.
  - intros q' E. by apply app_last_char in E.
Qed.

(** X1.  A normalized path is empty or ends with a slash and is not the bare
    slash, and normalizing it again changes nothing. *)
Theorem normalizePath_idempotent (path : string) :
  (normalizePath path = "" ∨
   (normalizePath path ≠ "/" ∧ ∃ q, normalizePath path = q +:+ "/")) ∧
  normalizePath (normalizePath path) = normalizePath path.
Proof.
  split; [apply normalizePath_normalized |].
  apply normalizePath_fixes_normalized, normalizePath_normalized.
Qed.

(** ** Canonical keys *)

Lemma app_inv_head_string (q s s' : string) : q +:+ s = q +:+ s' → s = s'.
Proof.
  induction q as [|c q IH]; rewrite ?app_nil, ?app_cons; [done |].
  intros [= E]. by apply IH.
Qed.

Lemma nul_free_cons (c : ascii) (h : string) :
  nul_free (String c h) → c ≠ Ascii.zero ∧ nul_free h.
Proof.
  unfold nul_free. cbn [list_ascii_of_string In]. intros Hn. split.
  - intros ->. apply Hn. by left.
  - intros Hin. apply Hn. by right.
Qed.

Lemma key_split_unique (h1 h2 p1 p2 : string) :
  nul_free h1 → nul_free h2 →
  h1 +:+ NUL +:+ p1 = h2 +:+ NUL +:+ p2 → h1 = h2 ∧ p1 = p2.
Proof.
  revert h2. induction h1 as [|c1 h1 IH]; intros [|c2 h2] Hn1 Hn2 E;
    rewrite ?app_nil, ?app_cons in E.
  - split; [done |]. by apply (app_inv_head_string NUL).
  - apply nul_free_cons in Hn2 as [Hc _]. unfold NUL in E. rewrite app_cons in E.
    by injection E as <- _.
  - apply nul_free_cons in Hn1 as [Hc _]. unfold NUL in E. rewrite app_cons in E.
    by injection E as -> _.
  - apply nul_free_cons in Hn1 as [_ Hn1]. apply nul_free_cons in Hn2 as [_ Hn2].
    injection E as -> E. destruct (IH h2 Hn1 Hn2 E) as [-> ->]. done.
Qed.

(** X2.  Two endpoints with the same host have the same canonical key only if
    they are the same endpoint; and so have any two endpoints whose hosts are
    free of the separator byte. *)
Theorem CanonicalKey_inj (e1 e2 : Endpoint) :
  CanonicalKey e1 = CanonicalKey e2 →
  (Host e1 = Host e2 → e1 = e2) ∧
  (nul_free (Host e1) → nul_free (Host e2) → e1 = e2).
Proof.
  destruct e1 as [h1 p1], e2 as [h2 p2]. unfold CanonicalKey. cbn [Host Path].
  intros E. split.
  - intros ->. f_equal.
    apply app_inv_head_string in E. by apply (app_inv_head_string NUL) in E.
  - intros Hn1 Hn2. by destruct (key_split_unique h1 h2 p1 p2 Hn1 Hn2 E) as [-> ->].
Qed.

Lemma CanonicalKey_inj_witness :
  CanonicalKey {| Host := "a.example.com"; Path := "/v1/" |}
    = CanonicalKey {| Host := "a.example.com"; Path := "/v1/" |} ∧
  ({| Host := "a.example.com"; Path := "/v1/" |}
   = {| Host := "a.example.com"; Path := "/v1/" |}).
Proof.
  split; [reflexivity |].
  destruct (CanonicalKey_inj {| Host := "a.example.com"; Path := "/v1/" |}
              {| Host := "a.example.com"; Path := "/v1/" |} eq_refl) as [Hsame _].
  by apply Hsame.
Defined.

(** A host that holds the separator byte can share its key with another
    endpoint: the hypothesis of the second part is needed. *)
Example CanonicalKey_collision :
  CanonicalKey {| Host := "a" +:+ NUL +:+ "b"; Path := "/c/" |}
  = CanonicalKey {| Host := "a"; Path := "b" +:+ NUL +:+ "/c/" |}.
Proof. reflexivity. Qed.

(** ** Emission *)

Section Emission.

Variable path : string.

Local Abbreviation key h := (CanonicalKey {| Host := h; Path := path |}).

Local Abbreviation emitStep :=
  (fun (endpointMap : gmap string Endpoint) (host : string) =>
     match endpointMap !! key host with
     | Some _ => endpointMap
     | None => <[key host := {| Host := host; Path := path |}]> endpointMap
     end).

Lemma key_inj_host (h1 h2 : string) : key h1 = key h2 → h1 = h2.
Proof. unfold CanonicalKey. cbn [Host Path]. apply app_inj_tail. Qed.

Lemma emitStep_subseteq (m : gmap string Endpoint) (h : string) : m ⊆ emitStep m h.
Proof.
  cbv beta. destruct (m !! key h) eqn:E; [reflexivity |]. by apply insert_subseteq.
Qed.

Lemma emit_fold_subseteq (hosts : list string) (m : gmap string Endpoint) :
  m ⊆ foldl emitStep m hosts.
Proof.
  revert m. induction hosts as [|h hosts IH]; intros m; [done |].
  cbn [foldl]. etrans; [apply (emitStep_subseteq m h) | apply IH].
Qed.

Lemma emit_fold_new (hosts : list string) (m : gmap string Endpoint) (h : string) :
  h ∈ hosts → m !! key h = None →
  foldl emitStep m hosts !! key h = Some {| Host := h; Path := path |}.
Proof.
  revert m. induction hosts as [|h0 hosts IH]; intros m Hin Hnone.
  - by apply elem_of_nil in Hin.
  - cbn [foldl]. cbv beta. destruct (decide (h = h0)) as [->|Hne].
    + rewrite Hnone.
      eapply lookup_weaken; [| apply emit_fold_subseteq]. apply lookup_insert_eq.
    + apply elem_of_cons in Hin as [-> | Hin]; [done |].
      apply IH; [done |].
      assert (key h ≠ key h0) as Hk by (intros E; by apply key_inj_host in E).
      destruct (m !! key h0); [done |]. by rewrite lookup_insert_ne.
Qed.

Lemma emit_fold_origin (hosts : list string) (m : gmap string Endpoint) k e :
  foldl emitStep m hosts !! k = Some e →
  m !! k = Some e ∨ (Host e ∈ hosts ∧ Path e = path ∧ k = CanonicalKey e).
Proof.
  revert m. induction hosts as [|h0 hosts IH]; intros m Hk; [by left |].
  cbn [foldl] in Hk. cbv beta in Hk. apply IH in Hk as [Hk | (Hin & Hp & ->)].
  - destruct (m !! key h0) eqn:E; [by left |].
    destruct (decide (k = key h0)) as [->|Hne].
    + rewrite lookup_insert_eq in Hk. injection Hk as <-. right.
      cbn [Host Path]. split; [by left | done].
    + rewrite lookup_insert_ne in Hk by done. by left.
  - right. split; [by right | done].
Qed.

Lemma emit_fold_noop (hosts : list string) (m : gmap string Endpoint) :
  (∀ h, h ∈ hosts → is_Some (m !! key h)) → foldl emitStep m hosts = m.
Proof.
  induction hosts as [|h0 hosts IH]; intros Hall; [done |].
  cbn [foldl]. cbv beta. destruct (Hall h0) as [e E]; [by left |]. rewrite E.
  apply IH. intros h Hin. apply Hall. by right.
Qed.

End Emission.

Lemma emitEndpoints_subseteq (ctx : RouteContext) (m : gmap string Endpoint) :
  m ⊆ emitEndpoints ctx m.
Proof. apply (emit_fold_subseteq (CtxPath ctx)). Qed.

Lemma emitEndpoints_origin (ctx : RouteContext) (m : gmap string Endpoint) k e :
  emitEndpoints ctx m !! k = Some e →
  m !! k = Some e ∨ (Host e ∈ emittedHosts ctx ∧ Path e = CtxPath ctx ∧ k = CanonicalKey e).
Proof. apply (emit_fold_origin (CtxPath ctx) (emittedHosts ctx)). Qed.

Lemma emitEndpoints_twice (ctx : RouteContext) (m : gmap string Endpoint) :
  emitEndpoints ctx (emitEndpoints ctx m) = emitEndpoints ctx m.
Proof.
  apply (emit_fold_noop (CtxPath ctx) (emittedHosts ctx)). intros h Hin.
  destruct (m !! CanonicalKey {| Host := h; Path := CtxPath ctx |}) as [e|] eqn:E.
  - exists e. eapply lookup_weaken; [exact E | apply emitEndpoints_subseteq].
  - eexists. by apply (emit_fold_new (CtxPath ctx) (emittedHosts ctx)).
Qed.

(** X3.  [emitEndpoints] keeps every entry the map already has, leaves every
    emitted host with an entry under its key (its own endpoint when the key
    was free), adds nothing but endpoints of the emitted hosts at the
    context's path, and does nothing when run a second time. *)
Theorem emitEndpoints_spec (ctx : RouteContext) (endpointMap : gmap string Endpoint) :
  endpointMap ⊆ emitEndpoints ctx endpointMap ∧
  (∀ h, h ∈ emittedHosts ctx →
     is_Some (emitEndpoints ctx endpointMap
                !! CanonicalKey {| Host := h; Path := CtxPath ctx |}) ∧
     (endpointMap !! CanonicalKey {| Host := h; Path := CtxPath ctx |} = None →
      emitEndpoints ctx endpointMap !! CanonicalKey {| Host := h; Path := CtxPath ctx |}
        = Some {| Host := h; Path := CtxPath ctx |})) ∧
  (∀ k e, emitEndpoints ctx endpointMap !! k = Some e →
     endpointMap !! k = Some e ∨
     (Host e ∈ emittedHosts ctx ∧ Path e = CtxPath ctx ∧ k = CanonicalKey e)) ∧
  emitEndpoints ctx (emitEndpoints ctx endpointMap) = emitEndpoints ctx endpointMap.
Proof.
  assert (∀ h, h ∈ emittedHosts ctx →
            is_Some (emitEndpoints ctx endpointMap
                       !! CanonicalKey {| Host := h; Path := CtxPath ctx |})) as Hsome.
  { intros h Hin.
    destruct (endpointMap !! CanonicalKey {| Host := h; Path := CtxPath ctx |})
      as [e|] eqn:E.
    - exists e. eapply lookup_weaken; [exact E |].
      apply (emit_fold_subseteq (CtxPath ctx)).
    - eexists. by apply (emit_fold_new (CtxPath ctx) (emittedHosts ctx)). }
  split; [apply (emit_fold_subseteq (CtxPath ctx)) |].
  split; [| split].
  - intros h Hin. split; [by apply Hsome |].
    by apply (emit_fold_new (CtxPath ctx) (emittedHosts ctx)).
  - intros k e. apply (emit_fold_origin (CtxPath ctx) (emittedHosts ctx)).
  - by apply (emit_fold_noop (CtxPath ctx) (emittedHosts ctx)).
Qed.

(** ** Traversal *)

(** Induction over the two nested trees of handlers. *)
Section RawInduction.

Variables (P : RawMessage → Prop) (P0 : RawRoute → Prop).
Hypothesis Hmalformed : P RawMalformed.
Hypothesis Hobject : ∀ handler, P (RawObject handler None).
Hypothesis Hroutes : ∀ handler routes, Forall P0 routes → P (RawObject handler (Some routes)).
Hypothesis Hundecodable : P0 RawRouteUndecodable.
Hypothesis Hroute : ∀ matchRaw handle, Forall P handle → P0 (RawRouteObject matchRaw handle).

Fixpoint RawMessage_nested_ind (raw : RawMessage) : P raw :=
  match raw with
  | RawMalformed => Hmalformed
  | RawObject handler None => Hobject handler
  | RawObject handler (Some routes) =>
      Hroutes handler routes
        ((fix go (l : list RawRoute) : Forall P0 l :=
            match l with
            | [] => List.Forall_nil _
            | r :: l' => List.Forall_cons _ _ _ (RawRoute_nested_ind r) (go l')
            end) routes)
  end
with RawRoute_nested_ind (route : RawRoute) : P0 route :=
  match route with
  | RawRouteUndecodable => Hundecodable
  | RawRouteObject matchRaw handle =>
      Hroute matchRaw handle
        ((fix go (l : list RawMessage) : Forall P l :=
            match l with
            | [] => List.Forall_nil _
            | h :: l' => List.Forall_cons _ _ _ (RawMessage_nested_ind h) (go l')
            end) handle)
  end.

End RawInduction.

Section HandlerInduction.

Variables (P : MiddlewareHandler → Prop) (P0 : Route → Prop).
Hypothesis Hproxy : P ReverseProxyHandler.
Hypothesis Hsubroute : ∀ routes, Forall P0 routes → P (Subroute routes).
Hypothesis Hother : ∀ module, P (OtherHandler module).
Hypothesis Hroute : ∀ matchRaw handlersRaw matcherSets handlers,
  Forall P handlers → P0 (mkRoute matchRaw handlersRaw matcherSets handlers).

Fixpoint MiddlewareHandler_nested_ind (handler : MiddlewareHandler) : P handler :=
  match handler with
  | ReverseProxyHandler => Hproxy
  | Subroute routes =>
      Hsubroute routes
        ((fix go (l : list Route) : Forall P0 l :=
            match l with
            | [] => List.Forall_nil _
            | r :: l' => List.Forall_cons _ _ _ (Route_nested_ind r) (go l')
            end) routes)
  | OtherHandler module => Hother module
  end
with Route_nested_ind (route : Route) : P0 route :=
  match route with
  | mkRoute matchRaw handlersRaw matcherSets handlers =>
      Hroute matchRaw handlersRaw matcherSets handlers
        ((fix go (l : list MiddlewareHandler) : Forall P l :=
            match l with
            | [] => List.Forall_nil _
            | h :: l' => List.Forall_cons _ _ _ (MiddlewareHandler_nested_ind h) (go l')
            end) handlers)
  end.

End HandlerInduction.

Lemma foldl_preserves {A B} (Q : A → Prop) (f : A → B → A) (l : list B) (a : A) :
  Forall (fun x => ∀ a, Q a → Q (f a x)) l → Q a → Q (foldl f a l).
Proof.
  intros Hall. revert a. induction Hall as [|x l Hx Hall IH]; intros a Ha; [done |].
  cbn [foldl]. apply IH. by apply Hx.
Qed.

(** Whatever [emitEndpoints] preserves, under contexts that [mergeMatchers]
    keeps within [C], every traversal preserves. *)
Section Preservation.

Variables (C : RouteContext → Prop) (Q : gmap string Endpoint → Prop).
Hypothesis Hmerge : ∀ route ctx, C ctx → C (mergeMatchers route ctx).
Hypothesis Hemit : ∀ ctx m, C ctx → Q m → Q (emitEndpoints ctx m).

Lemma traverseHandlerRaw_preserves (handlerRaw : RawMessage) :
  ∀ ctx m, C ctx → Q m → Q (traverseHandlerRaw handlerRaw ctx m).
Proof.
  induction handlerRaw using RawMessage_nested_ind
    with (P0 := fun routeAny => ∀ ctx m, C ctx → Q m →
                  Q (match routeAny with
                     | RawRouteUndecodable => m
                     | RawRouteObject _ handle =>
                         foldl (fun m handlerRaw => traverseHandlerRaw handlerRaw ctx m)
                               m handle
                     end)); intros ctx m Hc Hq.
  - done.
  - cbn [traverseHandlerRaw]. destruct handler as [handlerType|]; [| done].
    destruct (String.eqb handlerType "reverse_proxy"); [by apply Hemit |].
    by destruct (String.eqb handlerType "subroute").
  - cbn [traverseHandlerRaw]. destruct handler as [handlerType|]; [| done].
    destruct (String.eqb handlerType "reverse_proxy"); [by apply Hemit |].
    destruct (String.eqb handlerType "subroute"); [| done].
    apply (foldl_preserves Q); [| done].
    eapply Forall_impl; [exact H |]. intros routeAny Hr m' Hq'. by apply Hr.
  - done.
  - apply (foldl_preserves Q); [| done].
    eapply Forall_impl; [exact H |]. intros raw Hr m' Hq'. by apply Hr.
Qed.

Lemma traverseHandler_preserves (handler : MiddlewareHandler) :
  ∀ ctx m, C ctx → Q m → Q (traverseHandler handler ctx m).
Proof.
  induction handler using MiddlewareHandler_nested_ind
    with (P0 := fun route => ∀ ctx m, C ctx → Q m → Q (traverseRoute route ctx m));
    intros ctx m Hc Hq.
  - by apply Hemit.
  - cbn [traverseHandler]. apply (foldl_preserves Q); [| done].
    eapply Forall_impl; [exact H |]. intros route Hr m' Hq'. by apply Hr.
  - done.
  - cbn [traverseRoute].
    set (ctx' := mergeMatchers (mkRoute matchRaw handlersRaw matcherSets handlers) ctx).
    assert (C ctx') as Hc' by (by apply Hmerge).
    assert (Q (foldl (fun m handler => traverseHandler handler ctx' m) m handlers))
      as Hq'.
    { apply (foldl_preserves Q); [| done].
      eapply Forall_impl; [exact H |]. intros handler Hh m' Hm'. by apply Hh. }
    destruct ((length handlers =? 0)%nat && (0 <? length handlersRaw)%nat); [| done].
    apply (foldl_preserves Q); [| done].
    apply Forall_forall. intros raw _ m' Hm'. by apply traverseHandlerRaw_preserves.
Qed.

Lemma traverseRoute_preserves (route : Route) :
  ∀ ctx m, C ctx → Q m → Q (traverseRoute route ctx m).
Proof.
  intros ctx m Hc Hq.
  change (traverseRoute route ctx m)
    with (traverseHandler (Subroute [route]) ctx m).
  by apply traverseHandler_preserves.
Qed.

End Preservation.

(** X4.  No traversal removes or replaces an entry: the map a traversal
    returns extends the map it was given, for routes, for provisioned
    handlers and for handlers in JSON form. *)
Theorem traversal_extends (route : Route) (handler : MiddlewareHandler)
    (handlerRaw : RawMessage) (ctx : RouteContext) (endpointMap : gmap string Endpoint) :
  endpointMap ⊆ traverseRoute route ctx endpointMap ∧
  endpointMap ⊆ traverseHandler handler ctx endpointMap ∧
  endpointMap ⊆ traverseHandlerRaw handlerRaw ctx endpointMap.
Proof.
  assert (∀ ctx' m, True → endpointMap ⊆ m → endpointMap ⊆ emitEndpoints ctx' m) as Hemit.
  { intros ctx' m _ Hm. etrans; [exact Hm |]. apply emitEndpoints_subseteq. }
  split; [| split].
  - by apply (traverseRoute_preserves (fun _ => True) (fun m => endpointMap ⊆ m)).
  - by apply (traverseHandler_preserves (fun _ => True) (fun m => endpointMap ⊆ m)).
  - by apply (traverseHandlerRaw_preserves (fun _ => True) (fun m => endpointMap ⊆ m)).
Qed.

Lemma mergeMatchers_normalized (route : Route) (ctx : RouteContext) :
  normalized (CtxPath ctx) → normalized (CtxPath (mergeMatchers route ctx)).
Proof.
  intros Hn. unfold mergeMatchers.
  apply (foldl_preserves (fun c => normalized (CtxPath c))); [| done].
  apply Forall_forall. intros matcherSet _ c Hc.
  apply (foldl_preserves (fun c => normalized (CtxPath c))); [| done].
  apply Forall_forall. intros matcher _ c' Hc'.
  destruct matcher as [hosts|[|p0 paths]|]; try done.
  apply normalizePath_normalized.
Qed.

Lemma emitEndpoints_well_keyed (ctx : RouteContext) (m : gmap string Endpoint) :
  normalized (CtxPath ctx) → well_keyed m → well_keyed (emitEndpoints ctx m).
Proof.
  intros Hn Hm k e Hk.
  apply emitEndpoints_origin in Hk as [Hk | (_ & Hp & ->)]; [by apply Hm |].
  by rewrite Hp.
Qed.

(** X5.  Every endpoint the traversal of an application collects sits in the
    map under its own canonical key, and its path is normalized: empty, or
    ending with a slash and not the bare slash. *)
Theorem scanServers_well_keyed (httpApp : App) (k : string) (e : Endpoint) :
  scanServers httpApp !! k = Some e →
  k = CanonicalKey e ∧
  (Path e = "" ∨ (Path e ≠ "/" ∧ ∃ q, Path e = q +:+ "/")).
Proof.
  revert k e. change (well_keyed (scanServers httpApp)). unfold scanServers.
  apply (foldl_preserves well_keyed); [| by intros k e Hk].
  apply Forall_forall. intros [serverName server] _ m Hm.
  apply (foldl_preserves well_keyed); [| done].
  apply Forall_forall. intros route _ m' Hm'.
  apply (traverseRoute_preserves (fun c => normalized (CtxPath c)) well_keyed).
  - apply mergeMatchers_normalized.
  - apply emitEndpoints_well_keyed.
  - destruct (negb _ && negb _); by left.
  - done.
Qed.

Lemma scanServers_well_keyed_witness :
  scanServers sampleApp !! CanonicalKey {| Host := "api.example.com"; Path := "/v1/" |}
    = Some {| Host := "api.example.com"; Path := "/v1/" |} ∧
  ("/v1/" = "" ∨ ("/v1/" ≠ "/" ∧ ∃ q, "/v1/" = q +:+ "/")).
Proof.
  assert (scanServers sampleApp
            !! CanonicalKey {| Host := "api.example.com"; Path := "/v1/" |}
          = Some {| Host := "api.example.com"; Path := "/v1/" |}) as H
    by (vm_compute; reflexivity).
  split; [exact H |].
  exact (proj2 (scanServers_well_keyed sampleApp _ _ H)).
Defined.

(** X21.  The traversal of a handler in JSON form never changes the
    context: whatever the handler nests, the map it returns is the map it was
    given, or that map after one emission for the context it was reached
    with.  Host and path matchers of nested raw routes are thus without
    effect. *)
Theorem traverseHandlerRaw_single_emission (handlerRaw : RawMessage)
    (ctx : RouteContext) (endpointMap : gmap string Endpoint) :
  traverseHandlerRaw handlerRaw ctx endpointMap = endpointMap ∨
  traverseHandlerRaw handlerRaw ctx endpointMap = emitEndpoints ctx endpointMap.
Proof.
  apply (traverseHandlerRaw_preserves
           (fun c => c = ctx)
           (fun m => m = endpointMap ∨ m = emitEndpoints ctx endpointMap));
    [| done | by left].
  intros c m -> [-> | ->]; right; [done | apply emitEndpoints_twice].
Qed.

(** ** Matchers *)

Lemma foldl_concat {A B} (f : A → B → A) (ls : list (list B)) (a : A) :
  foldl (fun a l => foldl f a l) a ls = foldl f a (concat ls).
Proof.
  revert a. induction ls as [|l ls IH]; intros a; [done |].
  cbn [foldl concat]. by rewrite foldl_app, IH.
Qed.

(** X6.  [mergeMatchers] reads the matcher sets of a route as one sequence:
    the last host matcher in it replaces the inherited hosts, the last path
    matcher with at least one pattern replaces the inherited path by its
    first pattern, normalized; without such a matcher the parent's value is
    inherited. *)
Theorem mergeMatchers_last_wins (route : Route) (parentCtx : RouteContext) :
  Hosts (mergeMatchers route parentCtx)
    = default (Hosts parentCtx) (last (omap hostsOf (concat (MatcherSets route)))) ∧
  CtxPath (mergeMatchers route parentCtx)
    = default (CtxPath parentCtx) (last (omap pathOf (concat (MatcherSets route)))).
Proof.
  unfold mergeMatchers. rewrite foldl_concat.
  generalize (concat (MatcherSets route)). intros matchers.
  induction matchers as [|matcher matchers IH] using rev_ind; [done |].
  rewrite foldl_app, !omap_app. cbn [foldl].
  destruct IH as [IHh IHp].
  destruct matcher as [hosts|[|p0 paths]|];
    cbn [omap list_omap hostsOf pathOf Hosts CtxPath];
    rewrite ?app_nil_r, ?last_snoc; by split.
Qed.

(** * Further properties of the reconciliation engine *)

#[local] Instance up_to_date_dec (mapping : ResourceMapping) (existing : Resource.t) :
  Decision (up_to_date mapping existing).
Proof. unfold up_to_date. apply _. Defined.

Section Calls.

Context {W : Type} `{!GraphQL W} `{!NetLib}.

Implicit Types (s : Session W) (mapping : ResourceMapping) (P : Call → Prop).

Lemma emits_forEach_in {A S} P (f : S → A → Eff W S) (l : list A) :
  (∀ acc x, x ∈ l → emits P (f acc x)) → ∀ acc, emits P (forEach f acc l).
Proof.
  induction l as [|x l IH]; intros Hf acc; cbn [forEach].
  - apply emits_ret.
  - apply emits_bind; [apply Hf; by left |].
    intros acc'. apply IH. intros acc'' y Hy. apply Hf. by right.
Qed.

Lemma emits_updateExistingResource P mapping existing :
  (∀ id, P (CResourceUpdate id (Name mapping) (Address mapping)
              (default "" (Alias mapping)))) →
  emits (W := W) P (updateExistingResource mapping existing).
Proof.
  intros HP s. destruct (decide (up_to_date mapping existing)) as [Hup|Hdiff].
  - rewrite updateExistingResource_noop by done. exists []. by rewrite app_nil_r.
  - destruct (updateExistingResource_update mapping existing s Hdiff) as (ok & Hc & _).
    eexists. split; [exact Hc |]. constructor; [apply HP | constructor].
Qed.

(** The calls one mapping can cause: listings, a create with its fields, an
    update with its fields. *)
Lemma emits_syncSingleResource_for P mapping networkID :
  (∀ n, P (CResources n)) →
  P (CResourceCreate
       {| ResourceCreateInput.Name := Name mapping;
          ResourceCreateInput.Address := Address mapping;
          ResourceCreateInput.RemoteNetworkID := networkID;
          ResourceCreateInput.Alias := default "" (Alias mapping) |}) →
  (∀ id, P (CResourceUpdate id (Name mapping) (Address mapping)
              (default "" (Alias mapping)))) →
  emits (W := W) P (syncSingleResource mapping networkID).
Proof.
  intros Hq Hcreate Hupdate. unfold syncSingleResource.
  destruct (validateMapping mapping); [apply emits_ret |].
  apply emits_bind.
  - destruct (Alias mapping); unfold GetResourceByAlias;
      repeat first [ apply emits_ret | apply emits_GetResources; exact Hq
                   | apply emits_bind; [| intros ?]
                   | match goal with
                     | |- emits _ (match ?x with _ => _ end) => destruct x
                     end ].
  - intros [[existing|]|e]; [| | apply emits_ret].
    + by apply emits_updateExistingResource.
    + unfold createNewResource, CreateResource.
      apply emits_bind; [by apply emits_perform |].
      intros [r|e]; apply emits_ret.
Qed.

Lemma emits_upsertResources_for P (mappings : list ResourceMapping) networkID :
  (∀ mapping, mapping ∈ mappings → emits (W := W) P (syncSingleResource mapping networkID)) →
  emits P (upsertResources mappings networkID).
Proof.
  intros Hone. unfold upsertResources. apply emits_forEach_in.
  intros [success errors] mapping Hin. unfold upsertStep.
  apply emits_bind; [by apply Hone |]. intros [e|]; apply emits_ret.
Qed.

(** [SyncResources] makes the calls of its three phases and no other. *)
Lemma emits_SyncResources P (mappings : list ResourceMapping)
    (remoteNetworkName : string) (cleanupConfig : option CleanupConfig) :
  (∀ n, P (CRemoteNetworks n)) →
  P (CRemoteNetworkCreate (effectiveName remoteNetworkName)) →
  (∀ networkID, emits (W := W) P (upsertResources mappings networkID)) →
  (∀ networkID cfg, cleanupConfig = Some cfg → Enabled cfg = true →
     emits (W := W) P (deleteStaleResources mappings networkID cfg)) →
  emits P (SyncResources mappings remoteNetworkName cleanupConfig).
Proof.
  intros Hq Hcreate Hupsert Hcleanup. unfold SyncResources.
  fold (effectiveName remoteNetworkName).
  destruct (length mappings =? 0)%nat; [apply emits_ret |].
  apply emits_bind.
  - unfold GetOrCreateRemoteNetwork, GetRemoteNetworkByName, GetRemoteNetworks,
      CreateRemoteNetwork.
    apply emits_bind.
    + apply emits_bind; [by apply emits_perform |].
      intros [networks|e]; apply emits_ret.
    + intros [[network|]|e]; [apply emits_ret | by apply emits_perform | apply emits_ret].
  - intros [network|e]; [| apply emits_ret].
    apply emits_bind; [apply Hupsert |]. intros [successCount errorCount].
    apply emits_bind.
    + destruct cleanupConfig as [cfg|]; [| apply emits_ret].
      destruct (Enabled cfg) eqn:E; [by apply Hcleanup | apply emits_ret].
    + intros [deleteCount deleteErrors].
      destruct (0 <? errorCount + deleteErrors)%nat; apply emits_ret.
Qed.

End Calls.

(** X7.  Every create call and every update call a sync makes carries the
    name, the address and the alias (the empty string for an absent one) of
    one of the mappings it was given. *)
Theorem SyncResources_carries {W : Type} `{!GraphQL W} `{!NetLib}
    (mappings : list ResourceMapping) (remoteNetworkName : string)
    (cleanupConfig : option CleanupConfig) (s : Session W) :
  ∃ l, calls (SyncResources mappings remoteNetworkName cleanupConfig s).2 = calls s ++ l ∧
       Forall (fun e => carries mappings e.1) l.
Proof.
  revert s. change (emits (carries mappings)
                      (SyncResources (W := W) mappings remoteNetworkName cleanupConfig)).
  apply emits_SyncResources; try done.
  - intros networkID. apply emits_upsertResources_for. intros mapping Hin.
    apply emits_syncSingleResource_for; try done.
    + by exists mapping.
    + intros id. by exists mapping.
  - intros networkID cfg _ _. by apply emits_deleteStaleResources.
Qed.

Section Gate.

Context {W : Type} `{!GraphQL W} `{!NetLib}.

Lemma emits_deleteStaleResources_dry P desired networkID cfg :
  DryRun cfg = true → (∀ n, P (CResources n)) →
  emits (W := W) P (deleteStaleResources desired networkID cfg).
Proof.
  intros Hdry HP s. rewrite dryRun_outcome by done. cbn [snd].
  rewrite GetResources_calls. eexists. split; [reflexivity |].
  constructor; [apply HP | constructor].
Qed.

End Gate.

(** X8.  Without a cleanup policy, with cleanup disabled, or in a dry run, a
    sync makes no delete call, whatever the remote inventory answers. *)
Theorem SyncResources_deletes_only_when_asked {W : Type} `{!GraphQL W} `{!NetLib}
    (mappings : list ResourceMapping) (remoteNetworkName : string)
    (cleanupConfig : option CleanupConfig) (s : Session W) :
  cleanup_harmless cleanupConfig →
  ∃ l, calls (SyncResources mappings remoteNetworkName cleanupConfig s).2 = calls s ++ l ∧
       Forall (fun e => is_delete e.1 = false) l.
Proof.
  intros Hharmless. revert s.
  change (emits (fun c => is_delete c = false)
            (SyncResources (W := W) mappings remoteNetworkName cleanupConfig)).
  apply emits_SyncResources; try done.
  - intros networkID. apply emits_upsertResources_for. intros mapping _.
    by apply emits_syncSingleResource_for.
  - intros networkID cfg -> Hen. destruct Hharmless as [Hoff | Hdry]; [congruence |].
    by apply emits_deleteStaleResources_dry.
Qed.

Lemma SyncResources_deletes_only_when_asked_witness :
  cleanup_harmless (Some dryRun) ∧
  ∃ l, calls (SyncResources [apiMapping] "" (Some dryRun)
                (Inventory.start threeStale)).2 = [] ++ l ∧
       Forall (fun e => is_delete e.1 = false) l.
Proof.
  split; [by right |].
  apply (SyncResources_deletes_only_when_asked [apiMapping] "" (Some dryRun)
           (Inventory.start threeStale)).
  by right.
Defined.

(** ** No silent failure *)

Section Soundness.

Context {W : Type} `{!GraphQL W} `{!NetLib}.

Implicit Types (s : Session W) (mapping : ResourceMapping).

Lemma sound_ret {A} (S : A → Prop) (a : A) : sound (W := W) S (ret a).
Proof. intros s. exists []. by rewrite app_nil_r. Qed.

Lemma sound_perform {A B} c (run : W → result A * W) (finish : result A → result B) :
  sound (fun r => is_Ok r = true) (perform c run finish).
Proof.
  intros s. unfold perform. destruct (run (world s)) as [answer w].
  eexists. split; [reflexivity |]. cbn [fst]. intros Hok. by repeat constructor.
Qed.

Lemma sound_bind {A B} (S1 : A → Prop) (S2 : B → Prop) (m : Eff W A) (k : A → Eff W B) :
  sound S1 m → (∀ a, sound S2 (k a)) → (∀ a s, S2 (k a s).1 → S1 a) →
  sound S2 (bind m k).
Proof.
  intros Hm Hk Hback s. unfold bind.
  destruct (Hm s) as (l1 & E1 & F1). destruct (m s) as [a s1]. cbn [fst snd] in *.
  destruct (Hk a s1) as (l2 & E2 & F2).
  exists (l1 ++ l2). rewrite E2, E1, app_assoc. split; [done |].
  intros Hs. apply Forall_app. split; [| by apply F2].
  apply F1. by apply (Hback a s1).
Qed.

Lemma sound_GetResources networkID :
  sound (W := W) (fun r => is_Ok r = true) (GetResources networkID).
Proof. apply sound_perform. Qed.

Lemma sound_GetResourceByAlias alias networkID :
  sound (W := W) (fun r => is_Ok r = true) (GetResourceByAlias alias networkID).
Proof.
  unfold GetResourceByAlias.
  apply (sound_bind (fun r => is_Ok r = true)); [apply sound_GetResources | |].
  - intros [resources|e]; apply sound_ret.
  - by intros [resources|e] s.
Qed.

Lemma sound_DeleteResource resourceID :
  sound (W := W) no_error (DeleteResource resourceID).
Proof.
  unfold DeleteResource.
  apply (sound_bind (fun r => is_Ok r = true)); [apply sound_perform | |].
  - intros r. apply sound_ret.
  - by intros [u|e] s.
Qed.

Lemma sound_createNewResource mapping networkID :
  sound (W := W) no_error (createNewResource mapping networkID).
Proof.
  unfold createNewResource, CreateResource.
  apply (sound_bind (fun r => is_Ok r = true)); [apply sound_perform | |].
  - intros [r|e]; apply sound_ret.
  - by intros [r|e] s.
Qed.

Lemma sound_updateExistingResource mapping existing :
  sound (W := W) no_error (updateExistingResource mapping existing).
Proof.
  intros s. destruct (decide (up_to_date mapping existing)) as [Hup|Hdiff].
  - rewrite updateExistingResource_noop by done. exists []. by rewrite app_nil_r.
  - destruct (updateExistingResource_update mapping existing s Hdiff) as (ok & Hc & Hok).
    eexists. split; [exact Hc |]. intros Hnone. apply Hok in Hnone as ->.
    by repeat constructor.
Qed.

Lemma sound_syncSingleResource mapping networkID :
  sound (W := W) no_error (syncSingleResource mapping networkID).
Proof.
  unfold syncSingleResource.
  destruct (validateMapping mapping); [apply sound_ret |].
  apply (sound_bind (fun r => is_Ok r = true)).
  - destruct (Alias mapping) as [alias|].
    + apply (sound_bind (fun r => is_Ok r = true));
        [apply sound_GetResourceByAlias | |].
      * intros [r|e]; apply sound_ret.
      * by intros [r|e] s.
    + apply (sound_bind (fun r => is_Ok r = true)); [apply sound_GetResources | |].
      * intros [r|e]; apply sound_ret.
      * by intros [r|e] s.
  - intros [[existing|]|e];
      [apply sound_updateExistingResource | apply sound_createNewResource
      | apply sound_ret].
  - intros [[existing|]|e] s; [done | done |]. by unfold ret, no_error.
Qed.

(** The error counter of the upsert loop never goes down, and stays put
    only if every call succeeded. *)
Lemma upsert_loop_sound networkID (mappings : list ResourceMapping) success errors s :
  ∃ l, calls (forEach (upsertStep networkID) (success, errors) mappings s).2
       = calls s ++ l ∧
       (errors ≤ (forEach (upsertStep networkID) (success, errors) mappings s).1.2)%nat ∧
       ((forEach (upsertStep networkID) (success, errors) mappings s).1.2 = errors →
        Forall (fun e => e.2 = true) l).
Proof.
  revert success errors s.
  induction mappings as [|mapping mappings IH]; intros success errors s.
  - exists []. rewrite forEach_nil, app_nil_r. by repeat split.
  - rewrite forEach_cons, upsertStep_eq. cbn [fst snd].
    destruct (sound_syncSingleResource mapping networkID s) as (l1 & E1 & F1).
    destruct (syncSingleResource mapping networkID s) as [[e|] s1]; cbn [fst snd] in *.
    + destruct (IH success (S errors) s1) as (l2 & E2 & Hle & _).
      exists (l1 ++ l2). rewrite E2, E1, app_assoc. split; [done |].
      split; [lia |]. intros Heq. lia.
    + destruct (IH (S success) errors s1) as (l2 & E2 & Hle & F2).
      exists (l1 ++ l2). rewrite E2, E1, app_assoc. split; [done |].
      split; [done |]. intros Heq. apply Forall_app. split; [by apply F1 | by apply F2].
Qed.

Lemma sound_upsertResources (mappings : list ResourceMapping) networkID :
  sound (W := W) (fun counts => counts.2 = 0) (upsertResources mappings networkID).
Proof.
  intros s. destruct (upsert_loop_sound networkID mappings 0 0 s) as (l & E & _ & F).
  by exists l.
Qed.

Lemma failed_zero_all_ok (l : list (Call * bool)) :
  failed l = 0 → Forall (fun e => e.2 = true) l.
Proof.
  unfold failed. induction l as [|[c [|]] l IH]; cbn [List.filter negb snd length];
    intros Hf; [done | | done].
  constructor; [done | by apply IH].
Qed.

Lemma sound_deleteStaleResources desired networkID cfg :
  sound (W := W) (fun counts => counts.2 = 0) (deleteStaleResources desired networkID cfg).
Proof.
  intros s. destruct (DryRun cfg) eqn:Hdry.
  - rewrite dryRun_outcome by done. cbn [fst snd]. rewrite GetResources_calls.
    eexists. split; [reflexivity |].
    destruct (GetResources networkID s).1; [| done].
    intros _. by repeat constructor.
  - unfold deleteStaleResources, bind.
    pose proof (GetResources_calls networkID s) as Hc.
    destruct (GetResources networkID s) as [[listing|e] s1]; cbn [fst snd is_Ok] in Hc.
    + destruct (length _ =? 0)%nat.
      * exists [(CResources 100, true)]. split; [done |]. intros _. by repeat constructor.
      * destruct (deleteStep_loop cfg (staleResources desired listing) 0 0 s1 Hdry)
          as (l & E & _ & R).
        exists ((CResources 100, true) :: l). rewrite E, Hc, <- app_assoc, R.
        split; [done |]. cbn [fst snd Nat.add]. intros Hf.
        constructor; [done | by apply failed_zero_all_ok].
    + exists [(CResources 100, false)]. by split.
Qed.

Lemma sound_GetOrCreateRemoteNetwork name :
  sound (W := W) (fun r => is_Ok r = true) (GetOrCreateRemoteNetwork name).
Proof.
  unfold GetOrCreateRemoteNetwork, GetRemoteNetworkByName, GetRemoteNetworks,
    CreateRemoteNetwork.
  apply (sound_bind (fun r => is_Ok r = true)).
  - apply (sound_bind (fun r => is_Ok r = true)); [apply sound_perform | |].
    + intros [networks|e]; apply sound_ret.
    + by intros [networks|e] s.
  - intros [[network|]|e]; [apply sound_ret | apply sound_perform | apply sound_ret].
  - intros [[network|]|e] s; [done | done |]. by unfold ret.
Qed.

Lemma sound_SyncResources (mappings : list ResourceMapping) remoteNetworkName cleanupConfig :
  sound (W := W) no_error (SyncResources mappings remoteNetworkName cleanupConfig).
Proof.
  intros s. rewrite SyncResources_eq.
  destruct (length mappings =? 0)%nat.
  { exists []. by rewrite app_nil_r. }
  destruct (sound_GetOrCreateRemoteNetwork (effectiveName remoteNetworkName) s)
    as (l1 & E1 & F1).
  destruct (GetOrCreateRemoteNetwork (effectiveName remoteNetworkName) s)
    as [[network|e] s1]; cbn [fst snd] in *; [| by exists l1].
  destruct (sound_upsertResources mappings (RemoteNetwork.ID network) s1)
    as (l2 & E2 & F2).
  destruct (upsertResources mappings (RemoteNetwork.ID network) s1)
    as [[successCount errorCount] s2]; cbn [fst snd] in *.
  assert (∃ l3, ∀ d de s3,
            match cleanupConfig with
            | Some cfg =>
                if Enabled cfg
                then deleteStaleResources mappings (RemoteNetwork.ID network) cfg s2
                else ((0, 0), s2)
            | None => ((0, 0), s2)
            end = ((d, de), s3) →
            calls s3 = calls s2 ++ l3 ∧ (de = 0 → Forall (fun e => e.2 = true) l3))
    as (l3 & H3).
  { destruct cleanupConfig as [cfg|]; [destruct (Enabled cfg) |].
    - destruct (sound_deleteStaleResources mappings (RemoteNetwork.ID network) cfg s2)
        as (l3 & E3 & F3).
      exists l3. intros d de s3 E. rewrite E in E3, F3. by split.
    - exists []. intros d de s3 [= <- <- <-]. by rewrite app_nil_r.
    - exists []. intros d de s3 [= <- <- <-]. by rewrite app_nil_r. }
  destruct (match cleanupConfig with
            | Some cfg => _
            | None => _
            end) as [[deleteCount deleteErrors] s3] eqn:E3.
  destruct (H3 _ _ _ eq_refl) as [Hc3 F3].
  exists (l1 ++ l2 ++ l3). cbn [fst snd]. rewrite Hc3, E2, E1, <- !app_assoc.
  split; [done |].
  destruct (0 <? errorCount + deleteErrors)%nat eqn:Hpos; [done |].
  apply Nat.ltb_ge in Hpos. intros _.
  apply Forall_app. split; [by apply F1 |].
  apply Forall_app. split; [apply F2 | apply F3]; lia.
Qed.

End Soundness.

(** X9.  A sync that reports success has had every one of its remote calls
    succeed: a failed listing, create, update or delete always shows in the
    result. *)
Theorem SyncResources_no_silent_failure {W : Type} `{!GraphQL W} `{!NetLib}
    (mappings : list ResourceMapping) (remoteNetworkName : string)
    (cleanupConfig : option CleanupConfig) (s : Session W) :
  (SyncResources mappings remoteNetworkName cleanupConfig s).1 = None →
  ∃ l, calls (SyncResources mappings remoteNetworkName cleanupConfig s).2 = calls s ++ l ∧
       Forall (fun e => e.2 = true) l.
Proof.
  intros Hnone.
  destruct (sound_SyncResources mappings remoteNetworkName cleanupConfig s)
    as (l & E & F).
  exists l. split; [done |]. by apply F.
Qed.

Lemma SyncResources_no_silent_failure_witness :
  (SyncResources [apiMapping] "" (Some wetRun) (Inventory.start inSync)).1 = None ∧
  ∃ l, calls (SyncResources [apiMapping] "" (Some wetRun) (Inventory.start inSync)).2
       = [] ++ l ∧
       Forall (fun e => e.2 = true) l.
Proof.
  split; [vm_compute; reflexivity |].
  apply (SyncResources_no_silent_failure [apiMapping] "" (Some wetRun)
           (Inventory.start inSync)).
  vm_compute. reflexivity.
Defined.

(** ** The upsert pass *)

Section UpsertPass.

Context {W : Type} `{!GraphQL W} `{!NetLib}.

Implicit Types (s : Session W) (mapping : ResourceMapping).

Lemma upsert_loop_counts networkID (mappings : list ResourceMapping) success errors s :
  (forEach (upsertStep networkID) (success, errors) mappings s).1.1
  + (forEach (upsertStep networkID) (success, errors) mappings s).1.2
  = success + errors + length mappings.
Proof.
  revert success errors s.
  induction mappings as [|mapping mappings IH]; intros success errors s.
  - rewrite forEach_nil. cbn [fst snd length]. lia.
  - rewrite forEach_cons, upsertStep_eq. cbn [fst snd length].
    destruct (syncSingleResource mapping networkID s).1; rewrite IH; lia.
Qed.

Lemma upsert_loop_invalid networkID (mappings : list ResourceMapping) success errors s :
  Forall (fun mapping => validateMapping mapping ≠ None) mappings →
  forEach (upsertStep networkID) (success, errors) mappings s
  = ((success, errors + length mappings), s).
Proof.
  intros Hall. revert errors.
  induction Hall as [|mapping mappings Hm Hall IH]; intros errors.
  - rewrite forEach_nil. cbn [length]. by rewrite Nat.add_0_r.
  - rewrite forEach_cons, upsertStep_eq. unfold syncSingleResource.
    destruct (validateMapping mapping) as [e|]; [| done].
    unfold ret. cbn [fst snd length]. rewrite IH. do 2 f_equal. lia.
Qed.

Lemma forEach_app {A S} (f : S → A → Eff W S) (l1 l2 : list A) acc s :
  forEach f acc (l1 ++ l2) s
  = forEach f (forEach f acc l1 s).1 l2 (forEach f acc l1 s).2.
Proof.
  revert acc s. induction l1 as [|x l1 IH]; intros acc s; [done |].
  cbn [app]. by rewrite !forEach_cons, IH.
Qed.

(** The counters only ever grow by what the loop adds to them. *)
Lemma upsert_loop_shift networkID (mappings : list ResourceMapping) success errors s :
  forEach (upsertStep networkID) (success, errors) mappings s
  = ((success + (upsertResources mappings networkID s).1.1,
      errors + (upsertResources mappings networkID s).1.2),
     (upsertResources mappings networkID s).2).
Proof.
  unfold upsertResources. revert success errors s.
  induction mappings as [|mapping mappings IH]; intros success errors s.
  - rewrite !forEach_nil. cbn [fst snd]. by rewrite !Nat.add_0_r.
  - rewrite !forEach_cons, !upsertStep_eq. cbn [fst snd].
    destruct (syncSingleResource mapping networkID s).1.
    + rewrite (IH success (S errors)), (IH 0 1). cbn [fst snd]. do 2 f_equal. lia.
    + rewrite (IH (S success) errors), (IH 1 0). cbn [fst snd]. do 2 f_equal. lia.
Qed.

Lemma upsertResources_app networkID (before after : list ResourceMapping) s :
  upsertResources (before ++ after) networkID s
  = (((upsertResources before networkID s).1.1
      + (upsertResources after networkID (upsertResources before networkID s).2).1.1,
      (upsertResources before networkID s).1.2
      + (upsertResources after networkID (upsertResources before networkID s).2).1.2),
     (upsertResources after networkID (upsertResources before networkID s).2).2).
Proof.
  unfold upsertResources at 1. rewrite forEach_app.
  fold (upsertResources before networkID s).
  destruct (upsertResources before networkID s) as [[success errors] s1].
  cbn [fst snd]. by rewrite upsert_loop_shift.
Qed.

Lemma upsertResources_cons networkID mapping (after : list ResourceMapping) s :
  upsertResources (mapping :: after) networkID s
  = ((match (syncSingleResource mapping networkID s).1 with
      | None => 1 | Some _ => 0
      end + (upsertResources after networkID (syncSingleResource mapping networkID s).2).1.1,
      match (syncSingleResource mapping networkID s).1 with
      | None => 0 | Some _ => 1
      end + (upsertResources after networkID (syncSingleResource mapping networkID s).2).1.2),
     (upsertResources after networkID (syncSingleResource mapping networkID s).2).2).
Proof.
  unfold upsertResources at 1. rewrite forEach_cons, upsertStep_eq. cbn [fst snd].
  destruct (syncSingleResource mapping networkID s).1; by rewrite upsert_loop_shift.
Qed.

(** A mapping that passes validation is looked up by one listing call, the
    first call of its turn; whatever follows is no listing.  A mapping that
    fails validation causes no call. *)
Lemma syncSingleResource_lookup mapping networkID s :
  ∃ l, calls (syncSingleResource mapping networkID s).2 = calls s ++ l ∧
       List.filter (fun e => is_query e.1) l
       = match validateMapping mapping with
         | None => [(CResources 100, is_Ok (GetResources networkID s).1)]
         | Some _ => []
         end.
Proof.
  assert (∀ existing : result (option Resource.t),
            ∀ s1, ∃ l,
              calls (match existing with
                     | Err e => ret (Some e)
                     | Ok (Some existingResource) =>
                         updateExistingResource mapping existingResource
                     | Ok None => createNewResource mapping networkID
                     end s1).2 = calls s1 ++ l ∧
              List.filter (fun e => is_query e.1) l = []) as Htail.
  { intros [[existing|]|e] s1.
    - destruct (emits_updateExistingResource (fun c => is_query c = false)
                  mapping existing (fun _ => eq_refl) s1) as (l & E & F).
      exists l. split; [exact E |].
      clear E. induction F as [|[c ok] l Hc F IH]; [done |].
      cbn [List.filter fst]. simpl in Hc. by rewrite Hc.
    - exists [(CResourceCreate
                 {| ResourceCreateInput.Name := Name mapping;
                    ResourceCreateInput.Address := Address mapping;
                    ResourceCreateInput.RemoteNetworkID := networkID;
                    ResourceCreateInput.Alias := default "" (Alias mapping) |},
               is_Ok (CreateResource
                        {| ResourceCreateInput.Name := Name mapping;
                           ResourceCreateInput.Address := Address mapping;
                           ResourceCreateInput.RemoteNetworkID := networkID;
                           ResourceCreateInput.Alias := default "" (Alias mapping) |}
                        s1).1)].
      split; [| done].
      unfold createNewResource, bind, CreateResource, perform.
      by destruct (Mutate_resourceCreate _ (world s1)) as [[p|e] w];
        [destruct (entity_of _ p) |].
    - exists []. by rewrite app_nil_r. }
  unfold syncSingleResource.
  destruct (validateMapping mapping) as [e|].
  { exists []. by rewrite app_nil_r. }
  pose proof (GetResources_calls networkID s) as Hc.
  destruct (Alias mapping) as [alias|]; unfold GetResourceByAlias, bind;
    destruct (GetResources networkID s) as [[resources|e] s1];
    cbn [fst snd is_Ok ret] in *;
    match goal with
    | |- ∃ l, calls (match ?x with _ => _ end ?s').2 = _ ∧ _ =>
        destruct (Htail (Ok x) s') as (l & E & F);
        exists ((CResources 100, true) :: l);
        rewrite E, Hc, <- app_assoc; split; [reflexivity |];
        cbn [List.filter fst is_query]; by rewrite F
    | |- _ => exists [(CResources 100, false)]; split; [exact Hc | reflexivity]
    end.
Qed.

Lemma upsertResources_lookups networkID (mappings : list ResourceMapping) s :
  ∃ l, calls (upsertResources mappings networkID s).2 = calls s ++ l ∧
       length (List.filter (fun e => is_query e.1) l)
       = length (List.filter (fun mapping => bool_decide (validateMapping mapping = None))
                             mappings).
Proof.
  revert s. induction mappings as [|mapping mappings IH]; intros s.
  - exists []. by rewrite app_nil_r.
  - rewrite upsertResources_cons. cbn [fst snd].
    destruct (syncSingleResource_lookup mapping networkID s) as (l1 & E1 & F1).
    destruct (IH (syncSingleResource mapping networkID s).2) as (l2 & E2 & F2).
    exists (l1 ++ l2). rewrite E2, E1, app_assoc. split; [done |].
    rewrite List.filter_app, List.length_app, F1, F2. cbn [List.filter].
    destruct (validateMapping mapping) as [e|].
    + by rewrite bool_decide_eq_false_2.
    + by rewrite bool_decide_eq_true_2.
Qed.

End UpsertPass.

(** X10.  The upsert pass goes through every mapping, whatever happens to the
    earlier ones.  Each mapping gets one turn of [syncSingleResource], on the
    session the mappings before it left behind, whether they succeeded or
    failed, and the mappings after it get theirs on the session it leaves;
    the successes are the turns that returned no error and the errors are
    the others, so the two numbers add up to the number of mappings.  On the
    wire, every mapping that passes validation is looked up by one listing
    call. *)
Theorem upsertResources_counts_all {W : Type} `{!GraphQL W} `{!NetLib}
    (mappings : list ResourceMapping) (networkID : string) (s : Session W) :
  (upsertResources mappings networkID s).1.1 + (upsertResources mappings networkID s).1.2
  = length mappings ∧
  (∀ before mapping after, mappings = before ++ mapping :: after →
     let earlier := upsertResources before networkID s in
     let turn := syncSingleResource mapping networkID earlier.2 in
     let later := upsertResources after networkID turn.2 in
     upsertResources mappings networkID s
     = ((earlier.1.1 + match turn.1 with None => 1 | Some _ => 0 end + later.1.1,
         earlier.1.2 + match turn.1 with None => 0 | Some _ => 1 end + later.1.2),
        later.2)) ∧
  ∃ l, calls (upsertResources mappings networkID s).2 = calls s ++ l ∧
       length (List.filter (fun e => is_query e.1) l)
       = length (List.filter (fun mapping => bool_decide (validateMapping mapping = None))
                             mappings).
Proof.
  split; [| split].
  - unfold upsertResources. by rewrite upsert_loop_counts.
  - intros before mapping after ->. cbv zeta.
    rewrite upsertResources_app, upsertResources_cons. cbn [fst snd].
    do 2 f_equal; lia.
  - apply upsertResources_lookups.
Qed.

(** The first mapping is refused by validation, the second is still looked
    up and found up to date: one error, one success, one listing call. *)
Lemma upsertResources_counts_all_witness :
  upsertResources [ipv6Mapping; apiMapping] "net1" (Inventory.start inSync)
  = ((1, 1),
     {| world := inSync; calls := [(CResources 100, true)] |}).
Proof.
  destruct (upsertResources_counts_all [ipv6Mapping; apiMapping] "net1"
              (Inventory.start inSync)) as (_ & Hturn & _).
  rewrite (Hturn [ipv6Mapping] apiMapping [] eq_refl).
  vm_compute. reflexivity.
Defined.

(** X11.  Mappings that fail validation (an empty name, an empty address, an
    address that does not parse, an address that is not IPv4) cost no remote
    call: each counts as one error and the remote world is left as it was. *)
Theorem upsertResources_rejects_invalid {W : Type} `{!GraphQL W} `{!NetLib}
    (mappings : list ResourceMapping) (networkID : string) (s : Session W) :
  Forall (fun mapping =>
            Name mapping = "" ∨ Address mapping = "" ∨
            ParseIP (Address mapping) = None ∨
            (∃ ip, ParseIP (Address mapping) = Some ip ∧ To4 ip = None)) mappings →
  upsertResources mappings networkID s = ((0, length mappings), s).
Proof.
  intros Hall. unfold upsertResources. rewrite upsert_loop_invalid; [done |].
  eapply Forall_impl; [exact Hall |]. intros mapping Hbad. unfold validateMapping.
  destruct (String.eqb_spec (Name mapping) ""); [done |].
  destruct (String.eqb_spec (Address mapping) ""); [done |].
  destruct Hbad as [? | [? | [-> | (ip & -> & ->)]]]; done.
Qed.

Lemma upsertResources_rejects_invalid_witness :
  Forall (fun mapping =>
            Name mapping = "" ∨ Address mapping = "" ∨
            ParseIP (Address mapping) = None ∨
            (∃ ip, ParseIP (Address mapping) = Some ip ∧ To4 ip = None))
         [ipv6Mapping; namelessMapping] ∧
  upsertResources [ipv6Mapping; namelessMapping] "net1" (Inventory.start inSync)
  = ((0, length [ipv6Mapping; namelessMapping]), Inventory.start inSync).
Proof.
  assert (Forall (fun mapping =>
            Name mapping = "" ∨ Address mapping = "" ∨
            ParseIP (Address mapping) = None ∨
            (∃ ip, ParseIP (Address mapping) = Some ip ∧ To4 ip = None))
         [ipv6Mapping; namelessMapping]) as Hbad.
  { constructor; [| constructor; [by left | constructor]].
    right. right. right. exists Inventory.V6. split; [vm_compute |]; reflexivity. }
  split; [exact Hbad |].
  exact (upsertResources_rejects_invalid [ipv6Mapping; namelessMapping] "net1"
           (Inventory.start inSync) Hbad).
Defined.

(** ** The cleanup pass *)

(** X12.  Whatever the cleanup policy, every delete call of
    [deleteStaleResources] carries the ID of a resource of its own listing
    whose name no desired mapping bears, and after a failed listing no delete
    call is made. *)
Theorem deleteStaleResources_spares_desired {W : Type} `{!GraphQL W}
    (desired : list ResourceMapping) (networkID : string) (cfg : CleanupConfig)
    (s : Session W) :
  ∃ l,
    calls (deleteStaleResources desired networkID cfg s).2
      = calls (GetResources networkID s).2 ++ l ∧
    match (GetResources networkID s).1 with
    | Ok listing =>
        Forall (fun e => ∃ r, r ∈ listing ∧ (Resource.Name r ∉ Name <$> desired) ∧
                              e.1 = CResourceDelete (Resource.ID r)) l
    | Err _ => l = []
    end.
Proof.
  destruct (DryRun cfg) eqn:Hdry.
  - exists []. rewrite dryRun_outcome by done. cbn [snd]. rewrite app_nil_r.
    split; [done |]. by destruct (GetResources networkID s).1.
  - unfold deleteStaleResources, bind.
    destruct (GetResources networkID s) as [[listing|e] s1]; cbn [fst snd].
    + rewrite staleResources_spec.
      destruct (length _ =? 0)%nat; [exists []; by rewrite app_nil_r |].
      destruct (deleteStep_loop cfg (List.filter (is_stale desired) listing) 0 0 s1 Hdry)
        as (l & E & Hl & _).
      exists l. split; [done |].
      apply Forall_forall. intros [c ok] Hin.
      assert (c ∈ l.*1) as Hc by (apply list_elem_of_fmap; by exists (c, ok)).
      rewrite Hl in Hc. apply list_elem_of_fmap in Hc as (r & -> & Hr).
      apply list_elem_of_In, List.filter_In in Hr as [Hr Hstale].
      exists r. split; [by apply list_elem_of_In |]. split; [| done].
      unfold is_stale in Hstale. by apply bool_decide_eq_true in Hstale.
    + exists []. by rewrite app_nil_r.
Qed.

(** ** The preview *)

Section Summary.

Context {W : Type} `{!GraphQL W} `{!NetLib}.

Implicit Types (s : Session W) (mapping : ResourceMapping).

(** One step of the classification loop: with a network, one listing call,
    and the mapping is counted exactly when that call succeeded. *)
Lemma summaryStep_found (network : RemoteNetwork.t) toCreate toUpdate mapping s :
  ∃ ok,
    calls (summaryStep (Some network) (toCreate, toUpdate) mapping s).2
      = calls s ++ [(CResources 100, ok)] ∧
    (summaryStep (Some network) (toCreate, toUpdate) mapping s).1.1
    + (summaryStep (Some network) (toCreate, toUpdate) mapping s).1.2
    + (if ok then 0 else 1)
    = toCreate + toUpdate + 1.
Proof.
  unfold summaryStep, GetResourceByAlias, bind.
  pose proof (GetResources_calls (RemoteNetwork.ID network) s) as Hc.
  destruct (Alias mapping) as [alias|];
    destruct (GetResources (RemoteNetwork.ID network) s) as [[resources|e] s1];
    cbn [fst snd is_Ok] in Hc; unfold ret;
    try match goal with
        | |- context [List.find ?f ?l] => destruct (List.find f l)
        end;
    cbn [fst snd]; eexists; (split; [exact Hc |]); cbn; lia.
Qed.

Lemma summary_loop (network : option RemoteNetwork.t) (mappings : list ResourceMapping)
    toCreate toUpdate s :
  ∃ l,
    calls (forEach (summaryStep network) (toCreate, toUpdate) mappings s).2
      = calls s ++ l ∧
    Forall (fun e => is_query e.1 = true) l ∧
    (forEach (summaryStep network) (toCreate, toUpdate) mappings s).1.1
    + (forEach (summaryStep network) (toCreate, toUpdate) mappings s).1.2
    + failed l
    = toCreate + toUpdate + length mappings ∧
    (network = None →
     l = [] ∧
     (forEach (summaryStep network) (toCreate, toUpdate) mappings s).1
     = (toCreate + length mappings, toUpdate)).
Proof.
  revert toCreate toUpdate s.
  induction mappings as [|mapping mappings IH]; intros toCreate toUpdate s.
  - exists []. rewrite forEach_nil, app_nil_r. cbn [fst snd length failed List.filter].
    split; [done |]. split; [done |]. split; [lia |].
    intros _. split; [done |]. f_equal. lia.
  - rewrite forEach_cons. destruct network as [network|].
    + destruct (summaryStep_found network toCreate toUpdate mapping s) as (ok & Hc & Hn).
      destruct (summaryStep (Some network) (toCreate, toUpdate) mapping s)
        as [[c1 u1] s1]. cbn [fst snd] in *.
      destruct (IH c1 u1 s1) as (l & E & Hq & Hsum & _).
      exists ((CResources 100, ok) :: l). rewrite E, Hc, <- app_assoc.
      split; [done |]. split; [by constructor |].
      split; [| done]. unfold failed in *. cbn [List.filter snd negb].
      destruct ok; cbn [negb length]; lia.
    + change (summaryStep None (toCreate, toUpdate) mapping s)
        with ((S toCreate, toUpdate), s). cbn [fst snd].
      destruct (IH (S toCreate) toUpdate s) as (l & E & Hq & Hsum & Hnone).
      destruct (Hnone eq_refl) as [-> Hres].
      exists []. rewrite E, Hres. cbn [fst snd length failed List.filter].
      split; [done |]. split; [done |]. split; [lia |].
      intros _. split; [done |]. f_equal. lia.
Qed.

End Summary.

Lemma GetRemoteNetworkByName_calls {W : Type} `{!GraphQL W} name (s : Session W) :
  calls (GetRemoteNetworkByName name s).2
  = calls s ++ [(CRemoteNetworks 100, is_Ok (GetRemoteNetworkByName name s).1)].
Proof.
  unfold GetRemoteNetworkByName, bind. rewrite GetRemoteNetworks_eq.
  by destruct (Query_remoteNetworks 100 (world s)) as [[page|e] w1].
Qed.

(** [GetSyncSummary] in terms of the network lookup and the classification
    loop. *)
Lemma GetSyncSummary_eq {W : Type} `{!GraphQL W} `{!NetLib}
    (mappings : list ResourceMapping) (remoteNetworkName : string) (s : Session W) :
  GetSyncSummary mappings remoteNetworkName s =
  if (length mappings =? 0)%nat
  then (Ok (SyncSummary.mk (length mappings) "" "" "" 0 0), s)
  else
    let '(network, s1) := GetRemoteNetworkByName (effectiveName remoteNetworkName) s in
    match network with
    | Err e => (Err ("failed to check remote network: " +:+ e), s1)
    | Ok network =>
        let '((toCreate, toUpdate), s2) :=
          forEach (summaryStep network) (0, 0) mappings s1 in
        (Ok (SyncSummary.mk (length mappings)
               (match network with Some _ => "use_existing" | None => "create" end)
               (match network with
                | Some n => RemoteNetwork.Name n
                | None => effectiveName remoteNetworkName
                end)
               (match network with Some n => RemoteNetwork.ID n | None => "" end)
               toCreate toUpdate), s2)
    end.
Proof.
  unfold GetSyncSummary. fold (effectiveName remoteNetworkName).
  destruct (length mappings =? 0)%nat; [done |].
  unfold bind at 1.
  destruct (GetRemoteNetworkByName (effectiveName remoteNetworkName) s)
    as [[network|e] s1]; [| done].
  destruct network as [network|]; cbv beta iota zeta; unfold bind at 1.
  - change (forEach _ (0, 0) mappings s1)
      with (forEach (summaryStep (Some network)) (0, 0) mappings s1).
    by destruct (forEach (summaryStep (Some network)) (0, 0) mappings s1)
      as [[toCreate toUpdate] s2].
  - change (forEach _ (0, 0) mappings s1)
      with (forEach (summaryStep None) (0, 0) mappings s1).
    by destruct (forEach (summaryStep None) (0, 0) mappings s1)
      as [[toCreate toUpdate] s2].
Qed.

(** X13.  [GetSyncSummary] only lists: it makes no create, update or delete
    call.  When it returns a summary, the total is the number of mappings,
    and every mapping is counted once as to create or to update except those
    whose lookup call failed, which are counted as neither; when the network
    is announced as to create, every mapping is counted as to create. *)
Theorem GetSyncSummary_preview {W : Type} `{!GraphQL W} `{!NetLib}
    (mappings : list ResourceMapping) (remoteNetworkName : string) (s : Session W) :
  ∃ l,
    calls (GetSyncSummary mappings remoteNetworkName s).2 = calls s ++ l ∧
    Forall (fun e => is_query e.1 = true) l ∧
    ∀ summary, (GetSyncSummary mappings remoteNetworkName s).1 = Ok summary →
      SyncSummary.TotalMappings summary = length mappings ∧
      SyncSummary.ResourcesToCreate summary + SyncSummary.ResourcesToUpdate summary
        + failed l = length mappings ∧
      (SyncSummary.RemoteNetworkAction summary = "create" →
         SyncSummary.ResourcesToCreate summary = length mappings ∧
         SyncSummary.ResourcesToUpdate summary = 0).
Proof.
  rewrite GetSyncSummary_eq.
  destruct (length mappings =? 0)%nat eqn:Hlen.
  { exists []. rewrite app_nil_r. split; [done |]. split; [done |].
    intros summary [= <-]. apply Nat.eqb_eq in Hlen. cbn. rewrite Hlen.
    by repeat split. }
  pose proof (GetRemoteNetworkByName_calls (effectiveName remoteNetworkName) s) as Hc.
  destruct (GetRemoteNetworkByName (effectiveName remoteNetworkName) s)
    as [[network|e] s1]; cbn [fst snd is_Ok] in Hc.
  - destruct (summary_loop network mappings 0 0 s1) as (l & E & Hq & Hsum & Hnone).
    destruct (forEach (summaryStep network) (0, 0) mappings s1)
      as [[toCreate toUpdate] s2] eqn:Eloop.
    cbn [fst snd] in *.
    exists ((CRemoteNetworks 100, true) :: l).
    rewrite E, Hc, <- app_assoc. split; [done |]. split; [by constructor |].
    intros summary [= <-]. cbn [SyncSummary.TotalMappings SyncSummary.ResourcesToCreate
      SyncSummary.ResourcesToUpdate SyncSummary.RemoteNetworkAction].
    split; [done |]. split.
    + unfold failed in *. cbn [List.filter snd negb]. lia.
    + destruct network as [network|]; [done |]. intros _.
      destruct (Hnone eq_refl) as [_ Hres]. injection Hres as -> ->. by split.
  - exists [(CRemoteNetworks 100, false)]. cbn [fst snd].
    split; [done |]. split; [by repeat constructor | done].
Qed.

(** ** Network resolution and lookup *)

(** X14.  [GetOrCreateRemoteNetwork] first lists.  After a failed listing it
    makes no further call and fails.  When the page holds a network of the
    requested name, it returns the first such network and makes no
    mutation.  Only when the page holds none does it send one create call,
    for exactly the requested name. *)
Theorem GetOrCreateRemoteNetwork_resolution {W : Type} `{!GraphQL W}
    (name : string) (s : Session W) :
  match (GetRemoteNetworks s).1 with
  | Err e => GetOrCreateRemoteNetwork name s = (Err e, (GetRemoteNetworks s).2)
  | Ok networks =>
      (∀ network,
         List.find (fun n => String.eqb (RemoteNetwork.Name n) name) networks
           = Some network →
         GetOrCreateRemoteNetwork name s = (Ok network, (GetRemoteNetworks s).2) ∧
         RemoteNetwork.Name network = name ∧ network ∈ networks) ∧
      (Forall (fun n => RemoteNetwork.Name n ≠ name) networks →
       calls (GetOrCreateRemoteNetwork name s).2
       = calls (GetRemoteNetworks s).2
         ++ [(CRemoteNetworkCreate name, is_Ok (GetOrCreateRemoteNetwork name s).1)])
  end.
Proof.
  unfold GetOrCreateRemoteNetwork, GetRemoteNetworkByName, bind.
  destruct (GetRemoteNetworks s) as [[networks|e] s1]; cbn [fst snd ret]; [| done].
  split.
  - intros network Hfind. rewrite Hfind. split; [done |].
    apply List.find_some in Hfind as [Hin Hname].
    split; [by apply String.eqb_eq | by apply list_elem_of_In].
  - intros Hnone.
    assert (List.find (fun n => String.eqb (RemoteNetwork.Name n) name) networks = None)
      as ->.
    { induction Hnone as [|n networks Hn Hnone IH]; [done |]. cbn [List.find].
      by apply String.eqb_neq in Hn as ->. }
    apply CreateRemoteNetwork_calls.
Qed.



(** ** [CreateOrUpdateResource] *)

(** X16.  [CreateOrUpdateResource] looks the mapping up by its alias, or by
    its name taken as an alias when it has none.  After a failed listing it
    makes no further call.  Otherwise it sends exactly one mutation: an
    update of the resource found, carrying the mapping's name, address and
    alias whether or not anything differs, or else a create; and it succeeds
    exactly when that mutation does. *)
Theorem CreateOrUpdateResource_one_mutation {W : Type} `{!GraphQL W}
    (mapping : ResourceMapping) (remoteNetworkID : string) (s : Session W) :
  match (GetResources remoteNetworkID s).1 with
  | Err e =>
      CreateOrUpdateResource mapping remoteNetworkID s
      = (Err ("failed to check for existing resource: " +:+ e),
         (GetResources remoteNetworkID s).2)
  | Ok listing =>
      calls (CreateOrUpdateResource mapping remoteNetworkID s).2
      = calls (GetResources remoteNetworkID s).2
        ++ [(match List.find
                     (fun r => match Resource.Alias r with
                               | Some a => String.eqb a (default (Name mapping) (Alias mapping))
                               | None => false
                               end) listing with
             | Some existing =>
                 CResourceUpdate (Resource.ID existing) (Name mapping)
                   (Address mapping) (default "" (Alias mapping))
             | None =>
                 CResourceCreate
                   {| ResourceCreateInput.Name := Name mapping;
                      ResourceCreateInput.Address := Address mapping;
                      ResourceCreateInput.RemoteNetworkID := remoteNetworkID;
                      ResourceCreateInput.Alias := default "" (Alias mapping) |}
             end,
             is_Ok (CreateOrUpdateResource mapping remoteNetworkID s).1)]
  end.
Proof.
  unfold CreateOrUpdateResource, GetResourceByAlias, bind.
  destruct (GetResources remoteNetworkID s) as [[listing|e] s1]; cbn [fst snd ret];
    [| done].
  destruct (List.find _ listing) as [existing|].
  - apply UpdateResource_calls.
  - unfold CreateResource, perform.
    by destruct (Mutate_resourceCreate _ (world s1)) as [[p|e] w].
Qed.

(** * Properties of the application *)

Lemma DiscoverEndpoints_nil (app : App) :
  scanServers app = ∅ → DiscoverEndpoints app = [].
Proof.
  intros Hempty. unfold DiscoverEndpoints. rewrite Hempty, map_to_list_empty.
  cbn [fmap list_fmap]. unfold dedupByHost. cbn [foldl].
  by rewrite map_to_list_empty.
Qed.

Lemma DiscoverEndpoints_hosts (app : App) (ep : Endpoint) :
  ep ∈ DiscoverEndpoints app → Host ep ∈ discoveredHosts app.
Proof.
  intros Hin.
  apply (ranges_to_dedup_elem ((map_to_list (scanServers app)).*2)
           (DiscoverEndpoints app) ep) in Hin as [_ Hhost];
    [| unfold ranges_to; reflexivity].
  unfold discoveredHosts. by apply elem_of_list_to_set.
Qed.

(** X17.  When the traversal finds no endpoint, [performSync] makes no
    remote call at all, so that even a live cleanup policy deletes
    nothing; it reports success and leaves [lastSync] as it was.  It makes
    no call either when the address cannot be resolved or the HTTP app is
    not available, and then reports the error. *)
Theorem performSync_skips {W : Type} `{!GraphQL W} `{!NetLib}
    (t : TwingateApp.t) (rt : Runtime) (s : Session W) :
  (∀ caddyAddress app,
     resolveCaddyAddress t rt = Ok caddyAddress → httpApp rt = Ok (Some app) →
     scanServers app = ∅ →
     performSync t rt s = ((None, t), s)) ∧
  ((TwingateApp.CaddyAddress t = "" ∧ ∃ e, dial rt = Err e) ∨
   (∃ e, httpApp rt = Err e) ∨ httpApp rt = Ok None →
   ∃ e, performSync t rt s = ((Some e, t), s)).
Proof.
  split.
  - intros caddyAddress app Haddr Happ Hempty. unfold performSync, syncEndpoints.
    rewrite Haddr, Happ, DiscoverEndpoints_nil by done. reflexivity.
  - unfold performSync, resolveCaddyAddress, GetOutboundIP.
    intros [[-> [e ->]] | [[e He] | He]]; cbn [String.eqb negb].
    + by eexists.
    + destruct (if negb _ then _ else _); rewrite ?He; by eexists.
    + destruct (if negb _ then _ else _); rewrite ?He; by eexists.
Qed.

Lemma performSync_skips_witness :
  resolveCaddyAddress sampleTwingate idleRuntime = Ok "10.0.0.1" ∧
  performSync sampleTwingate idleRuntime (Inventory.start threeStale)
  = ((None, sampleTwingate), Inventory.start threeStale).
Proof.
  split; [reflexivity |].
  destruct (performSync_skips sampleTwingate idleRuntime (Inventory.start threeStale))
    as [Hskip _].
  apply (Hskip "10.0.0.1" {| Servers := [("srv0", {| Routes := [] |})] |});
    reflexivity.
Defined.

Section EndToEnd.

Context {W : Type} `{!GraphQL W} `{!NetLib}.

Lemma emits_SyncResources_carries (mappings : list ResourceMapping)
    (remoteNetworkName : string) (cleanupConfig : option CleanupConfig) :
  emits (W := W) (carries mappings)
        (SyncResources mappings remoteNetworkName cleanupConfig).
Proof.
  apply emits_SyncResources; try done.
  - intros networkID. apply emits_upsertResources_for. intros mapping Hin.
    apply emits_syncSingleResource_for; try done.
    + by exists mapping.
    + intros id. by exists mapping.
  - intros networkID cfg _ _. by apply emits_deleteStaleResources.
Qed.

Lemma carries_announces (app : App) (caddyAddress : string) (c : Call) :
  carries (ToResourceMapping caddyAddress <$> DiscoverEndpoints app) c →
  announces app caddyAddress c.
Proof.
  destruct c as [| | |input|id name address alias|]; try done; cbn [carries announces].
  - intros (m & Hin & Hname & Haddr & _).
    apply list_elem_of_fmap in Hin as (ep & -> & Hep).
    rewrite Hname, Haddr. split; [done |]. by apply DiscoverEndpoints_hosts.
  - intros (m & Hin & -> & -> & _).
    apply list_elem_of_fmap in Hin as (ep & -> & Hep).
    split; [done |]. by apply DiscoverEndpoints_hosts.
Qed.

End EndToEnd.

(** X18.  Every create and every update call that [performSync] sends
    carries the resolved Caddy address (the configured one when there is
    one), and the name of a host the traversal discovered. *)
Theorem performSync_announces {W : Type} `{!GraphQL W} `{!NetLib}
    (t : TwingateApp.t) (rt : Runtime) (app : App) (caddyAddress : string)
    (s : Session W) :
  resolveCaddyAddress t rt = Ok caddyAddress →
  httpApp rt = Ok (Some app) →
  (TwingateApp.CaddyAddress t ≠ "" → caddyAddress = TwingateApp.CaddyAddress t) ∧
  ∃ l, calls (performSync t rt s).2 = calls s ++ l ∧
       Forall (fun e => announces app caddyAddress e.1) l.
Proof.
  intros Haddr Happ. split.
  - intros Hne. unfold resolveCaddyAddress in Haddr.
    apply String.eqb_neq in Hne. rewrite Hne in Haddr. by injection Haddr.
  - unfold performSync, syncEndpoints. rewrite Haddr, Happ.
    destruct (length (DiscoverEndpoints app) =? 0)%nat.
    { exists []. by rewrite app_nil_r. }
    unfold bind.
    destruct (emits_SyncResources_carries
                (ToResourceMapping caddyAddress <$> DiscoverEndpoints app)
                (TwingateApp.RemoteNetwork t) (TwingateApp.ResourceCleanup t) s)
      as (l & E & Hl).
    destruct (SyncResources _ _ _ s) as [[e|] s1]; cbn [fst snd ret] in *;
      exists l; (split; [done |]);
      (eapply Forall_impl; [exact Hl |]); intros ev; apply carries_announces.
Qed.

Lemma performSync_announces_witness :
  resolveCaddyAddress sampleTwingate sampleRuntime = Ok "10.0.0.1" ∧
  httpApp sampleRuntime = Ok (Some sampleApp) ∧
  ∃ l, calls (performSync sampleTwingate sampleRuntime (Inventory.start inSync)).2
       = [] ++ l ∧
       Forall (fun e => announces sampleApp "10.0.0.1" e.1) l.
Proof.
  split; [reflexivity |]. split; [reflexivity |].
  apply (performSync_announces sampleTwingate sampleRuntime sampleApp "10.0.0.1"
           (Inventory.start inSync)); reflexivity.
Defined.

Section Provisioning.

Context {W : Type} `{!GraphQL W} `{!NetLib}.

Lemma TestConnection_calls (s : Session W) :
  calls (TestConnection s).2
  = calls s ++ [(CRemoteNetworks 1, bool_decide ((TestConnection s).1 = None))].
Proof.
  unfold TestConnection, bind, perform, ret.
  by destruct (Query_remoteNetworks 1 (world s)) as [[page|e] w].
Qed.

Lemma Provision_valid (t : TwingateApp.t) (rt : Runtime) (s : Session W) :
  Validate t rt = None →
  Provision t rt s =
  match (TestConnection s).1 with
  | Some e => ((Some ("failed to connect to Twingate API: " +:+ e), t), (TestConnection s).2)
  | None =>
      match (performSync t rt (TestConnection s).2).1 with
      | (Some e, t') =>
          ((Some ("initial sync failed: " +:+ e), t'),
           (performSync t rt (TestConnection s).2).2)
      | (None, t') => ((None, t'), (performSync t rt (TestConnection s).2).2)
      end
  end.
Proof.
  unfold Validate, Provision.
  destruct (String.eqb (TwingateApp.Tenant t) ""); [done |].
  destruct (String.eqb (apiKey rt) ""); [done |]. intros _.
  unfold bind. destruct (TestConnection s) as [[e|] s1]; cbn [fst snd]; [done |].
  by destruct (performSync t rt s1) as [[[e|] t'] s2].
Qed.

Lemma sound_performSync (t : TwingateApp.t) (rt : Runtime) :
  sound (W := W) (fun r => r.1 = None) (performSync t rt).
Proof.
  intros s. unfold performSync.
  destruct (resolveCaddyAddress t rt) as [caddyAddress|e].
  2: { exists []. unfold ret. by rewrite app_nil_r. }
  destruct (httpApp rt) as [[app|]|e].
  2,3: exists []; unfold ret; by rewrite app_nil_r.
  unfold syncEndpoints.
  destruct (length (DiscoverEndpoints app) =? 0)%nat.
  { exists []. unfold ret. by rewrite app_nil_r. }
  unfold bind.
  destruct (sound_SyncResources (ToResourceMapping caddyAddress <$> DiscoverEndpoints app)
              (TwingateApp.RemoteNetwork t) (TwingateApp.ResourceCleanup t) s)
    as (l & E & F).
  destruct (SyncResources _ _ _ s) as [[e|] s1]; cbn [fst snd ret] in *;
    exists l; (split; [done |]); [done | intros _; by apply F].
Qed.

End Provisioning.

(** X19.  [Provision] makes the checks of [Validate] first: with an empty
    tenant or without an API key it fails with the same message and makes no
    remote call.  Past them its first call is the connection test, and when
    that test fails it is its only call: no sync is attempted, and the
    configuration and the last-sync time are as before. *)
Theorem Provision_guards {W : Type} `{!GraphQL W} `{!NetLib}
    (t : TwingateApp.t) (rt : Runtime) (s : Session W) :
  (∀ e, Validate t rt = Some e → Provision t rt s = ((Some e, t), s)) ∧
  (Validate t rt = None →
   (TwingateApp.Tenant t ≠ "" ∧ apiKey rt ≠ "") ∧
   ∀ e, (TestConnection s).1 = Some e →
     Provision t rt s
       = ((Some ("failed to connect to Twingate API: " +:+ e), t), (TestConnection s).2) ∧
     calls (Provision t rt s).2 = calls s ++ [(CRemoteNetworks 1, false)]).
Proof.
  split.
  - unfold Validate, Provision. intros e.
    destruct (String.eqb (TwingateApp.Tenant t) ""); [by intros [= <-] |].
    destruct (String.eqb (apiKey rt) ""); [by intros [= <-] | done].
  - intros Hvalid. split.
    + unfold Validate in Hvalid.
      destruct (String.eqb_spec (TwingateApp.Tenant t) ""); [done |].
      by destruct (String.eqb_spec (apiKey rt) "").
    + intros e He. rewrite (Provision_valid t rt s Hvalid), He. split; [done |].
      cbn [snd]. rewrite TestConnection_calls, He. done.
Qed.

Lemma Provision_guards_witness :
  Validate sampleTwingate sampleRuntime = None ∧
  (TwingateApp.Tenant sampleTwingate ≠ "" ∧ apiKey sampleRuntime ≠ "") ∧
  calls (Provision sampleTwingate sampleRuntime (Inventory.start cutOff)).2
    = [(CRemoteNetworks 1, false)].
Proof.
  split; [reflexivity |].
  destruct (Provision_guards sampleTwingate sampleRuntime (Inventory.start cutOff))
    as [_ Hvalid].
  destruct (Hvalid eq_refl) as [Hne Hfail]. split; [exact Hne |].
  exact (proj2 (Hfail _ eq_refl)).
Defined.

(** X20.  A [Provision] that reports success began with a connection test
    that succeeded, and every remote call of the sync that followed
    succeeded as well. *)
Theorem Provision_no_silent_failure {W : Type} `{!GraphQL W} `{!NetLib}
    (t : TwingateApp.t) (rt : Runtime) (s : Session W) :
  (Provision t rt s).1.1 = None →
  ∃ l, calls (Provision t rt s).2 = calls s ++ (CRemoteNetworks 1, true) :: l ∧
       Forall (fun e => e.2 = true) l.
Proof.
  intros Hnone.
  destruct (Validate t rt) as [e|] eqn:Hvalid.
  { unfold Validate, Provision in *.
    destruct (String.eqb (TwingateApp.Tenant t) ""); [done |].
    by destruct (String.eqb (apiKey rt) ""). }
  rewrite (Provision_valid t rt s Hvalid) in *.
  pose proof (TestConnection_calls s) as Hc.
  destruct (TestConnection s) as [[e|] s1]; cbn [fst snd] in *; [done |].
  destruct (sound_performSync t rt s1) as (l & E & F).
  destruct (performSync t rt s1) as [[[e|] t'] s2]; cbn [fst snd] in *; [done |].
  exists l. rewrite E, Hc, <- app_assoc. split; [done |]. by apply F.
Qed.

Lemma Provision_no_silent_failure_witness :
  (Provision sampleTwingate sampleRuntime (Inventory.start inSync)).1.1 = None ∧
  ∃ l, calls (Provision sampleTwingate sampleRuntime (Inventory.start inSync)).2
       = [] ++ (CRemoteNetworks 1, true) :: l ∧
       Forall (fun e => e.2 = true) l.
Proof.
  assert ((Provision sampleTwingate sampleRuntime (Inventory.start inSync)).1.1 = None)
    as Hok by (vm_compute; reflexivity).
  split; [exact Hok |].
  exact (Provision_no_silent_failure sampleTwingate sampleRuntime
           (Inventory.start inSync) Hok).
Defined.

(** * The fatal step *)

Lemma emits_GetOrCreateRemoteNetwork {W : Type} `{!GraphQL W} (P : Call → Prop)
    (name : string) :
  P (CRemoteNetworks 100) → P (CRemoteNetworkCreate name) →
  emits (W := W) P (GetOrCreateRemoteNetwork name).
Proof.
  intros Hq Hc.
  unfold GetOrCreateRemoteNetwork, GetRemoteNetworkByName, GetRemoteNetworks,
    CreateRemoteNetwork.
  apply emits_bind.
  - apply emits_bind; [by apply emits_perform |].
    intros [networks|e]; apply emits_ret.
  - intros [[network|]|e]; [apply emits_ret | by apply emits_perform | apply emits_ret].
Qed.

(** X22.  When the target network can neither be found nor created, a sync
    of a non-empty mapping list stops there: it reports the failure and has
    made no call but the network listing and, at most, the network creation;
    no resource is listed, created, updated or deleted. *)
Theorem SyncResources_fatal_resolution {W : Type} `{!GraphQL W} `{!NetLib}
    (mappings : list ResourceMapping) (remoteNetworkName : string)
    (cleanupConfig : option CleanupConfig) (s : Session W) (e : string) :
  mappings ≠ [] →
  (GetOrCreateRemoteNetwork (effectiveName remoteNetworkName) s).1 = Err e →
  (SyncResources mappings remoteNetworkName cleanupConfig s).1
    = Some ("failed to get or create remote network: " +:+ e) ∧
  ∃ l, calls (SyncResources mappings remoteNetworkName cleanupConfig s).2 = calls s ++ l ∧
       Forall (fun ev => ev.1 = CRemoteNetworks 100 ∨
                         ev.1 = CRemoteNetworkCreate (effectiveName remoteNetworkName)) l.
Proof.
  intros Hne Herr. rewrite SyncResources_eq.
  assert ((length mappings =? 0)%nat = false) as -> by (by destruct mappings).
  destruct (emits_GetOrCreateRemoteNetwork
              (fun c => c = CRemoteNetworks 100 ∨
                        c = CRemoteNetworkCreate (effectiveName remoteNetworkName))
              (effectiveName remoteNetworkName) (or_introl eq_refl) (or_intror eq_refl) s)
    as (l & E & Hl).
  destruct (GetOrCreateRemoteNetwork (effectiveName remoteNetworkName) s)
    as [[network|e'] s1]; cbn [fst snd] in *; [done |].
  injection Herr as ->. split; [done |]. by exists l.
Qed.

Lemma SyncResources_fatal_resolution_witness :
  [apiMapping] ≠ [] ∧
  (GetOrCreateRemoteNetwork (effectiveName "") (Inventory.start cutOff)).1
    = Err "failed to query remote networks: connection refused" ∧
  (SyncResources [apiMapping] "" (Some wetRun) (Inventory.start cutOff)).1
    = Some ("failed to get or create remote network: "
            +:+ "failed to query remote networks: connection refused").
Proof.
  split; [done |]. split; [reflexivity |].
  apply (SyncResources_fatal_resolution [apiMapping] "" (Some wetRun)
           (Inventory.start cutOff)
           "failed to query remote networks: connection refused");
    [done | reflexivity].
Defined.
